(** * BIP-158 test-vector generator ([bip-0158/gentestvectors.go])

    A shallow embedding of the generator: the two element extractors
    ([buildBasicFilter], [buildExtFilter]), the JSON row writer
    ([JSONTestWriter]) and the driver ([main]) that walks the chain, builds
    one filter pair per collision parameter and chains the filter headers.

    The packages the program imports (wire, chainhash, txscript, gcs,
    gcs/builder, rpcclient, os, json) are not part of the repository.  What
    the program needs from them is collected in the interfaces [Chain],
    [Gcs], [Client] and [Os] below; the driver is verified against every
    implementation of these interfaces. *)

From Stdlib Require Import ZArith Lia Strings.Byte.
From stdpp Require Import base tactics option list strings sorting.

Local Open Scope Z_scope.

(** ** Bytes, hashes and Go-style results *)

Definition bytes := list Byte.byte.

#[global] Instance byte_eq_dec : EqDecision Byte.byte := Byte.byte_eq_dec.

(** [chainhash.Hash] is a 32-byte array. *)
Abbreviation Hash := bytes.
Definition HashSize : nat := 32.

(** The zero value of [chainhash.Hash]. *)
Definition zeroHash : Hash := replicate HashSize Byte.x00.

Definition error := string.

(** A Go [(value, error)] pair with the usual discipline: the value is only
    meaningful when the error is nil. *)
Inductive result (A : Type) : Type :=
| Ok (a : A)
| Err (e : error).
Arguments Ok {A} a.
Arguments Err {A} e.

(** Fixed-width conversions of Go's [int]. *)
Definition uint8 (i : Z) : Z := i mod 2 ^ 8.
Definition uint32 (i : Z) : Z := i mod 2 ^ 32.

(** ** Wire types *)

Module wire.

Record OutPoint := { Hash_ : Hash; Index : Z }.

Record TxIn := {
  PreviousOutPoint : OutPoint;
  SignatureScript : option bytes;   (* [None] is the nil slice *)
  Witness : list bytes;
  Sequence : Z
}.

Record TxOut := { Value : Z; PkScript : bytes }.

Record MsgTx := {
  Version : Z;
  TxIn_ : list TxIn;
  TxOut_ : list TxOut;
  LockTime : Z
}.

Record MsgBlock := { Header : bytes; Transactions : list MsgTx }.

Inductive FilterType := GCSFilterRegular | GCSFilterExtended.

(** Replies of the cfilter RPCs; only the fields the driver reads. *)
Record MsgCFilter := { Data : bytes }.
Record MsgCFHeaders := { PrevFilterHeader : Hash }.

End wire.
Import wire.

(** ** Imported packages *)

(** Hashing, serialisation and script parsing. *)
Class Chain := {
  BlockHash : MsgBlock → Hash;                (* wire.MsgBlock.BlockHash *)
  TxHash : MsgTx → Hash;                      (* wire.MsgTx.TxHash *)
  Serialize : MsgBlock → result bytes;        (* wire.MsgBlock.Serialize *)
  HashString : Hash → string;                 (* chainhash.Hash.String *)
  EncodeToString : bytes → string;            (* hex.EncodeToString *)
  writeOutPoint : OutPoint → bytes;           (* txid followed by the index *)
  PushedData : bytes → result (list bytes)    (* txscript.PushedData *)
}.

(** The Golomb-coded set package and the header helper of its builder. *)
Class Gcs := {
  Filter : Type;
  Key : Type;
  zeroFilter : Filter;                        (* the value [gcs.Filter{}] *)
  DeriveKey : Hash → Key;
  BuildGCSFilter : Z → Key → list bytes → result (option Filter);
  NBytes : Filter → result bytes;
  MakeHeaderForFilter : option Filter → Hash → result Hash;
  DefaultP : Z
}.

(** ** The filter builder ([gcs/builder])

    The builder only accumulates entries until [Build] hands them to the
    encoder.  Its methods are modelled by their documented contracts:
    [AddEntry] appends the byte string it is given, [AddEntries] appends
    each of several, [AddHash] appends the bytes of a hash, [AddOutPoint]
    appends the serialised outpoint, [AddScript] appends every data push of
    a script and ignores a parse error, [AddWitness] appends every item of a
    witness stack.  Every method is a no-op once the builder holds an
    error; the only error a fresh builder can hold is a collision parameter
    above 32. *)
Section builder.
Context `{Chain, Gcs}.

Record GCSBuilder := {
  b_p : Z;
  b_key : Key;
  b_data : list bytes;
  b_err : option error
}.

Definition ErrPTooBig : error := "P is too large".

Definition WithKeyHashP (keyHash : Hash) (p : Z) : GCSBuilder :=
  {| b_p := p; b_key := DeriveKey keyHash; b_data := [];
     b_err := if decide (32 < p) then Some ErrPTooBig else None |}.

Definition Key_ (b : GCSBuilder) : result Key :=
  match b_err b with
  | Some e => Err e
  | None => Ok (b_key b)
  end.

Definition AddEntries (data : list bytes) (b : GCSBuilder) : GCSBuilder :=
  match b_err b with
  | Some _ => b
  | None => {| b_p := b_p b; b_key := b_key b;
               b_data := b_data b ++ data; b_err := None |}
  end.

Definition AddEntry (data : bytes) (b : GCSBuilder) : GCSBuilder :=
  AddEntries [data] b.

Definition AddHash (h : Hash) (b : GCSBuilder) : GCSBuilder :=
  AddEntry h b.

Definition AddOutPoint (o : OutPoint) (b : GCSBuilder) : GCSBuilder :=
  AddEntry (writeOutPoint o) b.

Definition AddScript (script : bytes) (b : GCSBuilder) : GCSBuilder :=
  match PushedData script with
  | Ok data => AddEntries data b
  | Err _ => b
  end.

Definition AddWitness (witness : list bytes) (b : GCSBuilder) : GCSBuilder :=
  AddEntries witness b.

Definition Build (b : GCSBuilder) : result (option Filter) :=
  match b_err b with
  | Some e => Err e
  | None => BuildGCSFilter (b_p b) (b_key b) (b_data b)
  end.

(** ** The element extractors *)

(** [for i, x := range xs { b = body i x b }], counting from [i]. *)
Fixpoint rangeFrom {A} (body : nat → A → GCSBuilder → GCSBuilder)
    (i : nat) (xs : list A) (b : GCSBuilder) : GCSBuilder :=
  match xs with
  | [] => b
  | x :: xs => rangeFrom body (S i) xs (body i x b)
  end.

(** Body of the transaction loop of [buildBasicFilter]. *)
Definition basicTx (i : nat) (tx : MsgTx) (b : GCSBuilder) : GCSBuilder :=
  let txHash := TxHash tx in
  let b := AddHash txHash b in
  let b :=
    if decide (i ≠ 0%nat)
    then rangeFrom (λ _ txIn, AddOutPoint (PreviousOutPoint txIn)) 0 (TxIn_ tx) b
    else b in
  rangeFrom (λ _ txOut, AddEntry (PkScript txOut)) 0 (TxOut_ tx) b.

(** The builder of [buildBasicFilter] just before [Build]. *)
Definition basicBuilder (block : MsgBlock) (p : Z) : GCSBuilder :=
  rangeFrom basicTx 0 (Transactions block) (WithKeyHashP (BlockHash block) p).

Definition buildBasicFilter (block : MsgBlock) (p : Z) : result (option Filter) :=
  let blockHash := BlockHash block in
  let b := WithKeyHashP blockHash p in
  match Key_ b with
  | Err e => Err e
  | Ok _ => Build (rangeFrom basicTx 0 (Transactions block) b)
  end.

(** Body of the input loop of [buildExtFilter]. *)
Definition extTxIn (txIn : TxIn) (b : GCSBuilder) : GCSBuilder :=
  let b :=
    match SignatureScript txIn with
    | Some script => AddScript script b
    | None => b
    end in
  if decide (length (Witness txIn) ≠ 0%nat) then AddWitness (Witness txIn) b else b.

(** Body of the transaction loop of [buildExtFilter]. *)
Definition extTx (i : nat) (tx : MsgTx) (b : GCSBuilder) : GCSBuilder :=
  if decide (i ≠ 0%nat)
  then rangeFrom (λ _ txIn, extTxIn txIn) 0 (TxIn_ tx) b
  else b.

Definition extBuilder (block : MsgBlock) (p : Z) : GCSBuilder :=
  rangeFrom extTx 0 (Transactions block) (WithKeyHashP (BlockHash block) p).

Definition buildExtFilter (block : MsgBlock) (p : Z) : result (option Filter) :=
  let blockHash := BlockHash block in
  let b := WithKeyHashP blockHash p in
  match Key_ b with
  | Err e => Err e
  | Ok _ => Build (rangeFrom extTx 0 (Transactions block) b)
  end.

End builder.


(** ** Output files and the JSON row writer *)

(** The values that occur in a row ([[]interface{}]). *)
Inductive Cell :=
| CInt (z : Z)
| CStr (s : string).

Definition Row := list Cell.

(** An [*os.File] opened for writing: its path and the chunks written to it
    so far, one per successful [Write]. *)
Record File := { f_name : string; f_data : list bytes; f_closed : bool }.

(** The operating system, the JSON encoder and the RPC endpoint. *)
Class Os := {
  Mkdir : string → option error;              (* os.Mkdir *)
  Create : string → option error;             (* os.Create *)
  ReadCert : result bytes;                    (* ioutil.ReadFile of the RPC certificate *)
  writeError : File → bytes → option error;   (* whether this write to this file fails *)
  Marshal : Row → result bytes                (* json.Marshal *)
}.

Class Client := {
  New : bytes → option error;                 (* rpcclient.New *)
  GetBlockHash : Z → result Hash;
  GetBlock : Hash → result MsgBlock;
  GetCFilter : Hash → FilterType → result MsgCFilter;
  GetCFilterHeader : Hash → FilterType → result MsgCFHeaders
}.

Module Case.
Record testBlockCase := { height : Z; comment : string }.
End Case.
Abbreviation testBlockCase := Case.testBlockCase.

(** [testBlockHeights] are the heights of the blocks to include in the test
    vectors. *)
Definition testBlockHeights : list testBlockCase :=
  [ {| Case.height := 0; Case.comment := "Genesis block" |};
    {| Case.height := 1; Case.comment := "Extended filter is empty" |};
    {| Case.height := 2; Case.comment := "" |};
    {| Case.height := 3; Case.comment := "" |};
    {| Case.height := 926485;
       Case.comment := "Duplicate pushdata 913bcc2be49cb534c20474c4dee1e9c4c317e7eb" |};
    {| Case.height := 987876; Case.comment := "Coinbase tx has unparseable output script" |};
    {| Case.height := 1263442; Case.comment := "Includes witness data" |} ].

Record JSONTestWriter := { writer : File; firstRowWritten : bool }.

Definition bytesOf (s : string) : bytes := String.list_byte_of_string s.

(** The line feed of Go's ["\n"]. *)
Definition LF : string := String (Ascii.ascii_of_nat 10) "".

Section writer.
Context `{Os}.

(** [w.Write(p)] on a file: the chunk is appended unless the write fails. *)
Definition Write (f : File) (p : bytes) : File * option error :=
  match writeError f p with
  | Some e => (f, Some e)
  | None =>
      ({| f_name := f_name f; f_data := f_data f ++ [p]; f_closed := f_closed f |},
       None)
  end.

Definition WriteString (f : File) (s : string) : File * option error :=
  Write f (bytesOf s).

Definition closeFile (f : File) : File :=
  {| f_name := f_name f; f_data := f_data f; f_closed := true |}.

Definition NewJSONTestWriter (f : File) : JSONTestWriter :=
  {| writer := f; firstRowWritten := false |}.

Definition WriteTestCase (w : JSONTestWriter) (row : Row)
    : JSONTestWriter * option error :=
  let '(w, err) :=
    if firstRowWritten w then
      let '(f, err) := WriteString (writer w) ("," +:+ LF) in
      ({| writer := f; firstRowWritten := firstRowWritten w |}, err)
    else
      let '(f, err) := WriteString (writer w) ("[" +:+ LF) in
      ({| writer := f; firstRowWritten := true |}, err) in
  match err with
  | Some e => (w, Some e)
  | None =>
      match Marshal row with
      | Err e => (w, Some e)
      | Ok rowBytes =>
          let '(f, err) := Write (writer w) rowBytes in
          ({| writer := f; firstRowWritten := firstRowWritten w |}, err)
      end
  end.

Definition WriteComment (w : JSONTestWriter) (c : string)
    : JSONTestWriter * option error :=
  WriteTestCase w [CStr c].

Definition Close (w : JSONTestWriter) : JSONTestWriter * option error :=
  if negb (firstRowWritten w) then (w, None)
  else
    let '(f, err) := WriteString (writer w) (LF +:+ "]" +:+ LF) in
    ({| writer := f; firstRowWritten := firstRowWritten w |}, err).

End writer.

(** ** The state of [main] *)

(** The writers live on the heap and are referred to by address, both from
    the [files] slice and from the deferred [Close] calls. *)
Record State := {
  heap : list JSONTestWriter;
  deferred : list nat;                 (* latest [defer] first *)
  files : list (option nat);           (* [None] is the nil pointer *)
  prevBasicHeaders : list Hash;
  prevExtHeaders : list Hash
}.

Definition set_heap (h : list JSONTestWriter) (s : State) : State :=
  {| heap := h; deferred := deferred s; files := files s;
     prevBasicHeaders := prevBasicHeaders s; prevExtHeaders := prevExtHeaders s |}.

Definition set_deferred (d : list nat) (s : State) : State :=
  {| heap := heap s; deferred := d; files := files s;
     prevBasicHeaders := prevBasicHeaders s; prevExtHeaders := prevExtHeaders s |}.

Definition set_files (fs : list (option nat)) (s : State) : State :=
  {| heap := heap s; deferred := deferred s; files := fs;
     prevBasicHeaders := prevBasicHeaders s; prevExtHeaders := prevExtHeaders s |}.

Definition set_prevBasicHeaders (hs : list Hash) (s : State) : State :=
  {| heap := heap s; deferred := deferred s; files := files s;
     prevBasicHeaders := hs; prevExtHeaders := prevExtHeaders s |}.

Definition set_prevExtHeaders (hs : list Hash) (s : State) : State :=
  {| heap := heap s; deferred := deferred s; files := files s;
     prevBasicHeaders := prevBasicHeaders s; prevExtHeaders := hs |}.

(** How a run of [main] can stop early: a diagnostic is printed and [main]
    returns ([Fail], with the leading text of the diagnostic), the Go
    runtime panics, or the model ran out of fuel. *)
Inductive Stop :=
| Fail (msg : string)
| Panic (msg : string)
| OutOfFuel.

Inductive step (A : Type) : Type :=
| Next (a : A) (s : State)
| Halt (why : Stop) (s : State).
Arguments Next {A} a s.
Arguments Halt {A} why s.

Definition M (A : Type) : Type := State → step A.

#[global] Instance M_ret : MRet M := λ A a s, Next a s.

#[global] Instance M_bind : MBind M := λ A B k m s,
  match m s with
  | Next a s' => k a s'
  | Halt why s' => Halt why s'
  end.

Definition halt {A} (why : Stop) : M A := λ s, Halt why s.

(** [v, err := call; if err != nil { fmt.Println(msg, err); return }] *)
Definition try {A} (msg : string) (r : result A) : M A :=
  match r with
  | Ok a => mret a
  | Err _ => halt (Fail msg)
  end.

(** [err := call; if err != nil { fmt.Println(msg, err); return }] *)
Definition check (msg : string) (e : option error) : M unit :=
  match e with
  | None => mret tt
  | Some _ => halt (Fail msg)
  end.

(** [fmt.Println(msg); return] *)
Definition abort (msg : string) : M unit := halt (Fail msg).

Definition indexPanic : Stop := Panic "index out of range".
Definition nilPanic : Stop := Panic "nil pointer dereference".

(** [xs[i]] for a slice held in the state. *)
Definition readSlot {A} (xs : State → list A) (i : nat) : M A := λ s,
  match xs s !! i with
  | Some x => Next x s
  | None => Halt indexPanic s
  end.

(** [xs[i] = x] for a slice held in the state. *)
Definition writeSlot {A} (xs : State → list A)
    (set : list A → State → State) (i : nat) (x : A) : M unit := λ s,
  if decide (i < length (xs s))%nat
  then Next tt (set (<[i := x]> (xs s)) s)
  else Halt indexPanic s.

(** [for i := from; ...; i++ { body }] with [n] rounds to go; a [return] in
    the body ends the loop. *)
Fixpoint forRange (n : nat) (from : nat) (body : nat → M unit) : M unit :=
  match n with
  | O => mret tt
  | S n => body from ≫= λ _, forRange n (S from) body
  end.

(** ** The driver *)

Section driver.
Context `{Chain, Gcs, Os, Client}.

(** [if f == nil { f = &gcs.Filter{} }] *)
Definition orEmpty (f : option Filter) : option Filter :=
  match f with
  | None => Some zeroFilter
  | Some f => Some f
  end.

(** [f.NBytes()] through a [*gcs.Filter]. *)
Definition NBytesOf (f : option Filter) : M (result bytes) :=
  match f with
  | Some f => mret (NBytes f)
  | None => halt nilPanic
  end.

(** A method call on the writer at address [a]. *)
Definition callWriter (a : nat)
    (method : JSONTestWriter → JSONTestWriter * option error) : M (option error) :=
  w ← readSlot heap a;
  let '(w', err) := method w in
  writeSlot heap set_heap a w' ≫= λ _ : unit, mret err.

(** [files[i].WriteTestCase(row)] *)
Definition writeRow (i : nat) (row : Row) : M (option error) :=
  p ← readSlot files i;
  match p with
  | None => halt nilPanic
  | Some a => callWriter a (λ w, WriteTestCase w row)
  end.

(** The block guarded by [i == builder.DefaultP]: the filters and headers
    just built are compared with those of the server. *)
Definition crossCheck (blockHash : Hash) (basicFilter extFilter : option Filter)
    (basicHeader extHeader : Hash) : M unit :=
  filter ← try "Error getting basic filter: " (GetCFilter blockHash GCSFilterRegular);
  r ← NBytesOf basicFilter;
  nBytes ← try "Couldn't get NBytes(): " r;
  if decide (Data filter ≠ nBytes) then abort "Basic filter doesn't match!" else
  filter ← try "Error getting extended filter: " (GetCFilter blockHash GCSFilterExtended);
  r ← NBytesOf extFilter;
  nBytes ← try "Couldn't get NBytes(): " r;
  if decide (Data filter ≠ nBytes) then abort "Extended filter doesn't match!" else
  header ← try "Error getting basic header: " (GetCFilterHeader blockHash GCSFilterRegular);
  if decide (PrevFilterHeader header ≠ basicHeader)
  then abort "Basic header doesn't match!" else
  header ← try "Error getting extended header: " (GetCFilterHeader blockHash GCSFilterExtended);
  if decide (PrevFilterHeader header ≠ extHeader)
  then abort "Extended header doesn't match!" else
  mret tt.

(** The row literal of [main]. *)
Definition testRow (c : testBlockCase) (height : Z) (blockHash : Hash)
    (blockBytes : bytes) (prevBasic prevExt : Hash) (bfBytes efBytes : bytes)
    (basicHeader extHeader : Hash) : Row :=
  [ CInt height;
    CStr (HashString blockHash);
    CStr (EncodeToString blockBytes);
    CStr (HashString prevBasic);
    CStr (HashString prevExt);
    CStr (EncodeToString bfBytes);
    CStr (EncodeToString efBytes);
    CStr (HashString basicHeader);
    CStr (HashString extHeader);
    CStr (Case.comment c) ].

(** The block guarded by [uint32(height) == testBlockHeights[testBlockIndex].height]:
    one row is written to the file of [i]. *)
Definition emitRow (c : testBlockCase) (height : Z) (blockHash : Hash)
    (blockBytes : bytes) (basicFilter extFilter : option Filter)
    (basicHeader extHeader : Hash) (i : nat) : M unit :=
  r ← NBytesOf basicFilter;
  bfBytes ← try "Couldn't get NBytes(): " r;
  r ← NBytesOf extFilter;
  efBytes ← try "Couldn't get NBytes(): " r;
  prevBasic ← readSlot prevBasicHeaders i;
  prevExt ← readSlot prevExtHeaders i;
  err ← writeRow i (testRow c height blockHash blockBytes prevBasic prevExt
                      bfBytes efBytes basicHeader extHeader);
  check "Error writing test case to output: " err.

(** [testBlockHeights[testBlockIndex]] *)
Definition caseAt (cases : list testBlockCase) (testBlockIndex : nat)
    : M testBlockCase :=
  match cases !! testBlockIndex with
  | Some c => mret c
  | None => halt indexPanic
  end.

(** The body of the loop over [i], for one block. *)
Definition iteration (cases : list testBlockCase) (testBlockIndex : nat)
    (height : Z) (blockHash : Hash) (block : MsgBlock) (blockBytes : bytes)
    (i : nat) : M unit :=
  basicFilter ← try "Error generating basic filter: "
                    (buildBasicFilter block (uint8 (Z.of_nat i)));
  prevBasic ← readSlot prevBasicHeaders i;
  basicHeader ← try "Error generating header for filter: "
                    (MakeHeaderForFilter basicFilter prevBasic);
  let basicFilter := orEmpty basicFilter in
  extFilter ← try "Error generating ext filter: "
                  (buildExtFilter block (uint8 (Z.of_nat i)));
  prevExt ← readSlot prevExtHeaders i;
  extHeader ← try "Error generating header for filter: "
                  (MakeHeaderForFilter extFilter prevExt);
  let extFilter := orEmpty extFilter in
  (if decide (Z.of_nat i = DefaultP)
   then crossCheck blockHash basicFilter extFilter basicHeader extHeader
   else mret tt) ≫= λ _,
  c ← caseAt cases testBlockIndex;
  (if decide (uint32 height = Case.height c)
   then emitRow c height blockHash blockBytes basicFilter extFilter
          basicHeader extHeader i
   else mret tt) ≫= λ _,
  writeSlot prevBasicHeaders set_prevBasicHeaders i basicHeader ≫= λ _,
  writeSlot prevExtHeaders set_prevExtHeaders i extHeader.

(** The body of the loop over [height]; it yields the next value of
    [testBlockIndex]. *)
Definition heightStep (cases : list testBlockCase) (testBlockIndex : nat)
    (height : Z) : M nat :=
  blockHash ← try "Couldn't get block hash: " (GetBlockHash height);
  block ← try "Couldn't get block hash: " (GetBlock blockHash);
  blockBytes ← try "Error serializing block to buffer: " (Serialize block);
  forRange 32 1 (iteration cases testBlockIndex height blockHash block blockBytes) ≫= λ _,
  c ← caseAt cases testBlockIndex;
  mret (if decide (uint32 height = Case.height c)
        then S testBlockIndex else testBlockIndex).

(** [for height := 0; testBlockIndex < len(testBlockHeights); height++] *)
Fixpoint heightLoop (fuel : nat) (cases : list testBlockCase)
    (testBlockIndex : nat) (height : Z) : M unit :=
  if decide (testBlockIndex < length cases)%nat then
    match fuel with
    | O => halt OutOfFuel
    | S fuel =>
        heightStep cases testBlockIndex height ≫= λ testBlockIndex,
        heightLoop fuel cases testBlockIndex (height + 1)
    end
  else mret tt.

(** [fmt.Sprintf("gcstestvectors/testnet-%02d.json", i)] for [i < 100]. *)
Definition digit (n : nat) : string :=
  String (Ascii.ascii_of_nat (48 + n)) "".

Definition fName (i : nat) : string :=
  "gcstestvectors/testnet-" +:+ digit (i / 10) +:+ digit (i mod 10) +:+ ".json".

Definition columns : string :=
  "Block Height,Block Hash,Block,Previous Basic Header,Previous Ext Header,Basic Filter,Ext Filter,Basic Header,Ext Header,Notes".

(** [writer := &JSONTestWriter{writer: file}] together with the two
    [defer]s that follow the allocation in [main]. *)
Definition allocWriter (file : File) : M nat := λ s,
  let a := length (heap s) in
  Next a (set_deferred (a :: deferred s)
            (set_heap (heap s ++ [ {| writer := file; firstRowWritten := false |} ]) s)).

(** The body of the loop that opens the output files. *)
Definition openFile (i : nat) : M unit :=
  check "Error creating output file: " (Create (fName i)) ≫= λ _ : unit,
  a ← allocWriter {| f_name := fName i; f_data := []; f_closed := false |};
  err ← callWriter a (λ w, WriteComment w columns);
  check "Error writing to output file: " err ≫= λ _ : unit,
  writeSlot files set_files i (Some a).

(** The deferred calls, run when [main] returns: for every writer, latest
    first, [writer.Close()] and then [file.Close()]; errors are dropped. *)
Definition runDeferred (s : State) : State :=
  foldl (λ s a,
           match heap s !! a with
           | Some w =>
               let '(w, _) := Close w in
               set_heap (<[a := {| writer := closeFile (writer w);
                                   firstRowWritten := firstRowWritten w |}]> (heap s)) s
           | None => s
           end)
        (set_deferred [] s) (deferred s).

(** The state in which [main] starts. *)
Definition start : State :=
  {| heap := []; deferred := []; files := [];
     prevBasicHeaders := []; prevExtHeaders := [] |}.

(** [main] up to the first block: the output directory, the three slices,
    the 32 output files and the RPC client. *)
Definition setup : M unit :=
  check "Couldn't create directory: " (Mkdir "gcstestvectors") ≫= λ _,
  (λ s, Next tt
     (set_prevExtHeaders (replicate 33 zeroHash)
        (set_prevBasicHeaders (replicate 33 zeroHash)
           (set_files (replicate 33 None) s)))) ≫= λ _,
  forRange 32 1 openFile ≫= λ _,
  cert ← try "Couldn't read RPC cert: " ReadCert;
  check "Couldn't create a new client: " (New cert).

(** [main], for a given list of test heights: how it ended and the state
    once the deferred calls have run. *)
Definition mainWith (fuel : nat) (cases : list testBlockCase) : step unit :=
  match (setup ≫= λ _, heightLoop fuel cases 0 0) start with
  | Next a s => Next a (runDeferred s)
  | Halt why s => Halt why (runDeferred s)
  end.

Definition main (fuel : nat) : step unit := mainWith fuel testBlockHeights.

End driver.

(** ** The encoder and the header helper, from the specification

    The gcs package is imported, not part of the repository.  This module
    gives the encoder and the header helper the behaviour the specification
    describes, over the hash functions it leaves open. *)

Module spec.

(** Modelled from the spec: a filter is the encoded form of an element set
    under a key, [P] and the element count [N]. *)
Record Filter := { n : Z; p : Z; filterData : bytes }.

(** The zero value [gcs.Filter{}]. *)
Definition zero : Filter := {| n := 0; p := 0; filterData := [] |}.

Section model.

(** The keyed hash that maps an element into [[0, modulus)], the encoding of
    the count prefix, and the two digests of the header chain. *)
Variable hashToRange : bytes → Z → bytes → Z.
Variable countPrefix : Z → bytes.
Variable filterDigest : bytes → Hash.
Variable doubleHash : bytes → Hash.

(** Modelled from the spec: the filter key is a 128-bit value derived from
    the block hash. *)
Definition deriveKey (h : Hash) : bytes := take 16 h.

(** Modelled from the spec: duplicate byte strings collapse to one entry
    before encoding. *)
Definition elementSet (data : list bytes) : list bytes := remove_dups data.

(** Modelled from the spec: every element is hashed into [[0, N·M)] with
    [M = 2^P], and the resulting values are sorted. *)
Definition hashedSet (key : bytes) (P : Z) (data : list bytes) : list Z :=
  let E := elementSet data in
  let N := Z.of_nat (length E) in
  merge_sort Z.le (hashToRange key (N * 2 ^ P) <$> E).

(** Modelled from the spec: the sorted values are delta-encoded. *)
Fixpoint deltas (prev : Z) (values : list Z) : list Z :=
  match values with
  | [] => []
  | v :: values => (v - prev) :: deltas v values
  end.

(** The [k] low bits of [v], most significant first. *)
Fixpoint lowBits (k : nat) (v : Z) : list bool :=
  match k with
  | O => []
  | S k => Z.testbit v (Z.of_nat k) :: lowBits k v
  end.

(** Modelled from the spec: Golomb-Rice code of one delta with Rice
    parameter [P]: the quotient in unary, then the [P]-bit remainder. *)
Definition golombRice (P : Z) (d : Z) : list bool :=
  replicate (Z.to_nat (Z.shiftr d P)) true ++ [false] ++ lowBits (Z.to_nat P) d.

Definition bitAt (bits : list bool) (k : nat) : bool := default false (bits !! k).

(** Eight bits, most significant first, as one byte; missing bits are zero. *)
Definition byteOfBits (bits : list bool) : Byte.byte :=
  Byte.of_bits (bitAt bits 7, (bitAt bits 6, (bitAt bits 5, (bitAt bits 4,
               (bitAt bits 3, (bitAt bits 2, (bitAt bits 1, bitAt bits 0))))))).

Fixpoint packBytes (count : nat) (bits : list bool) : bytes :=
  match count with
  | O => []
  | S count => byteOfBits (take 8 bits) :: packBytes count (drop 8 bits)
  end.

Definition packBits (bits : list bool) : bytes :=
  packBytes ((length bits + 7) / 8) bits.

(** Modelled from the spec: [build(keySeed, P, elementSet)]; an empty set
    yields a filter that encodes zero elements. *)
Definition build (key : bytes) (P : Z) (data : list bytes) : Filter :=
  let values := hashedSet key P data in
  {| n := Z.of_nat (length values);
     p := P;
     filterData := packBits (mjoin (golombRice P <$> deltas 0 values)) |}.

(** Modelled from the spec: a filter serialises as a variable-length count
    prefix followed by the Golomb-Rice bit stream. *)
Definition nBytes (f : Filter) : bytes := countPrefix (n f) ++ filterData f.

(** Modelled from the spec:
    [nextHeader(filterBytes, prevHeader) = doubleHash(hash(filterBytes) || prevHeader)],
    a total function.  The spec does not say what the header of a nil filter
    is; it is given the digest of the empty byte string here. *)
Definition filterHash (f : option Filter) : Hash :=
  match f with
  | Some f => filterDigest (nBytes f)
  | None => filterDigest []
  end.

Definition nextHeader (f : option Filter) (prevHeader : Hash) : Hash :=
  doubleHash (filterHash f ++ prevHeader).

(** The package as the specification describes it. *)
Definition gcs (defaultP : Z) : Gcs :=
  Build_Gcs Filter bytes zero deriveKey
    (λ P key data, Ok (Some (build key P data)))
    (λ f, Ok (nBytes f))
    (λ f prev, Ok (nextHeader f prev))
    defaultP.

End model.
End spec.

(** ** A small concrete world

    One implementation of every interface, small enough to run: a script
    parser that recognises the push opcodes, toy digests, a chain of tiny
    blocks and a server that either agrees with the local results or
    returns empty filters.  It serves the examples below. *)

Module demo.

Definition byteOfZ (z : Z) : Byte.byte :=
  default Byte.x00 (Byte.of_N (Z.to_N (z mod 256))).

Definition zOfByte (b : Byte.byte) : Z := Z.of_N (Byte.to_N b).

(** Little-endian encoding and decoding of fixed width. *)
Fixpoint le (width : nat) (z : Z) : bytes :=
  match width with
  | O => []
  | S width => byteOfZ z :: le width (z / 256)
  end.

Fixpoint unLe (bs : bytes) : Z :=
  match bs with
  | [] => 0
  | b :: bs => zOfByte b + 256 * unLe bs
  end.

(** The data pushes of a script: opcodes 1 to 75 push that many bytes,
    76, 77 and 78 push a length-prefixed string (prefix of 1, 2 or 4
    bytes), every other opcode pushes nothing; a push that runs past the
    end of the script is a parse error. *)
Fixpoint pushes (fuel : nat) (script : bytes) : result (list bytes) :=
  match fuel, script with
  | O, _ | _, [] => Ok []
  | S fuel, op :: rest =>
      let o := zOfByte op in
      let prefix :=
        if decide (1 ≤ o ≤ 75) then Some (0%nat, o)
        else if decide (o = 76) then Some (1%nat, unLe (take 1 rest))
        else if decide (o = 77) then Some (2%nat, unLe (take 2 rest))
        else if decide (o = 78) then Some (4%nat, unLe (take 4 rest))
        else None in
      match prefix with
      | None => pushes fuel rest
      | Some (w, len) =>
          let body := drop w rest in
          if decide ((length rest < w)%nat ∨ Z.of_nat (length body) < len)
          then Err "malformed push"
          else
            match pushes fuel (drop (Z.to_nat len) body) with
            | Ok more => Ok (take (Z.to_nat len) body :: more)
            | Err e => Err e
            end
      end
  end.

Definition hexDigit (n : Z) : string :=
  String (Ascii.ascii_of_nat (Z.to_nat (if decide (n < 10) then 48 + n else 87 + n))) "".

Fixpoint hex (bs : bytes) : string :=
  match bs with
  | [] => ""
  | b :: bs => hexDigit (zOfByte b / 16) +:+ hexDigit (zOfByte b mod 16) +:+ hex bs
  end.

(** A 32-byte stand-in for a digest: the input, zero-padded or cut. *)
Definition pad32 (bs : bytes) : Hash := take 32 (bs ++ zeroHash).

Definition chain : Chain := {|
  BlockHash block := pad32 (Header block);
  TxHash tx := pad32 (le 4 (Version tx) ++ le 4 (LockTime tx));
  Serialize block := Ok (Header block);
  HashString h := hex (reverse h);
  EncodeToString := hex;
  writeOutPoint o := Hash_ o ++ le 4 (Index o);
  PushedData script := pushes (length script) script
|}.

Definition sumBytes (bs : bytes) : Z := foldr (λ b acc, zOfByte b + acc) 0 bs.

Definition hashToRange (key : bytes) (modulus : Z) (e : bytes) : Z :=
  if decide (modulus = 0) then 0 else (sumBytes key + 31 * sumBytes e) mod modulus.

Definition gcs : Gcs :=
  spec.gcs hashToRange (λ n, [byteOfZ n]) pad32 (λ bs, pad32 (reverse bs)) 19.

Definition cellBytes (c : Cell) : bytes :=
  match c with
  | CInt z => le 8 z
  | CStr s => bytesOf s
  end.

Definition os : Os := {|
  Mkdir _ := None;
  Create _ := None;
  ReadCert := Ok [];
  writeError _ _ := None;
  Marshal row := Ok (mjoin (cellBytes <$> row))
|}.

(** The block at a height: a coinbase and one spending transaction. *)
Definition coinbase (h : Z) : MsgTx :=
  {| Version := 1;
     TxIn_ := [ {| PreviousOutPoint := {| Hash_ := zeroHash; Index := 4294967295 |};
                   SignatureScript := Some [Byte.x01; byteOfZ h];
                   Witness := []; Sequence := 0 |} ];
     TxOut_ := [ {| Value := 50; PkScript := [Byte.x01; Byte.xaa] |} ];
     LockTime := h |}.

Definition spend (h : Z) : MsgTx :=
  {| Version := 2;
     TxIn_ := [ {| PreviousOutPoint := {| Hash_ := pad32 [byteOfZ h]; Index := 0 |};
                   SignatureScript := Some [Byte.x02; Byte.x0b; Byte.x0c; Byte.x51];
                   Witness := [[Byte.x0d]]; Sequence := 0 |} ];
     TxOut_ := [ {| Value := 49; PkScript := [Byte.x76; Byte.x01; Byte.xbb] |} ];
     LockTime := h |}.

Definition blockAt (h : Z) : MsgBlock :=
  {| Header := le 4 h;
     Transactions := if decide (h = 1) then [coinbase h] else [coinbase h; spend h] |}.

Definition heightOf (blockHash : Hash) : Z := unLe (take 4 blockHash).

(** The filter and the header the server holds for a block. *)
Definition serverFilter (ft : FilterType) (h : Z) : bytes :=
  let build := match ft with
               | GCSFilterRegular => buildBasicFilter (H := chain) (H0 := gcs)
               | GCSFilterExtended => buildExtFilter (H := chain) (H0 := gcs)
               end in
  match build (blockAt h) 19 with
  | Ok (Some f) => spec.nBytes (λ n, [byteOfZ n]) f
  | _ => []
  end.

Fixpoint serverHeader (ft : FilterType) (count : nat) : Hash :=
  match count with
  | O => zeroHash
  | S count =>
      let h := Z.of_nat count in
      let build := match ft with
                   | GCSFilterRegular => buildBasicFilter (H := chain) (H0 := gcs)
                   | GCSFilterExtended => buildExtFilter (H := chain) (H0 := gcs)
                   end in
      match build (blockAt h) 19 with
      | Ok f => spec.nextHeader (λ n, [byteOfZ n]) pad32 (λ bs, pad32 (reverse bs)) f
                  (serverHeader ft count)
      | Err _ => zeroHash
      end
  end.

(** A server whose filters and headers are those built locally. *)
Definition client : Client := {|
  New _ := None;
  GetBlockHash h := if decide (0 ≤ h < 1000) then Ok (pad32 (le 4 h)) else Err "no such block";
  GetBlock blockHash := Ok (blockAt (heightOf blockHash));
  GetCFilter blockHash ft := Ok {| Data := serverFilter ft (heightOf blockHash) |};
  GetCFilterHeader blockHash ft :=
    Ok {| PrevFilterHeader := serverHeader ft (S (Z.to_nat (heightOf blockHash))) |}
|}.

(** A server whose filters are empty byte strings. *)
Definition staleClient : Client := {|
  New _ := None;
  GetBlockHash h := if decide (0 ≤ h < 1000) then Ok (pad32 (le 4 h)) else Err "no such block";
  GetBlock blockHash := Ok (blockAt (heightOf blockHash));
  GetCFilter blockHash ft := Ok {| Data := [] |};
  GetCFilterHeader blockHash ft := Ok {| PrevFilterHeader := zeroHash |}
|}.

Definition smallCases : list testBlockCase :=
  [ {| Case.height := 0; Case.comment := "Genesis block" |};
    {| Case.height := 2; Case.comment := "" |} ].

End demo.

(** ** Vocabulary of the statements *)

Section elements.
Context `{Chain, Gcs}.

(** The data pushes of a script as [AddScript] sees them: none when the
    script does not parse. *)
Definition pushedItems (script : bytes) : list bytes :=
  match PushedData script with
  | Ok data => data
  | Err _ => []
  end.

(** What the loop body of [buildBasicFilter] appends for transaction [i]. *)
Definition basicElems (i : nat) (tx : MsgTx) : list bytes :=
  [TxHash tx]
  ++ (if decide (i ≠ 0%nat)
      then (λ txIn, writeOutPoint (PreviousOutPoint txIn)) <$> TxIn_ tx else [])
  ++ (PkScript <$> TxOut_ tx).

(** What the loop body of [buildExtFilter] appends for one input and for
    transaction [i]. *)
Definition extInElems (txIn : TxIn) : list bytes :=
  match SignatureScript txIn with
  | Some script => pushedItems script
  | None => []
  end ++ Witness txIn.

Definition extElems (i : nat) (tx : MsgTx) : list bytes :=
  if decide (i ≠ 0%nat) then TxIn_ tx ≫= extInElems else [].

(** The elements of a whole list of transactions, the first of which has
    index [i]. *)
Fixpoint elemsFrom {A} (f : nat → A → list bytes) (i : nat) (xs : list A)
    : list bytes :=
  match xs with
  | [] => []
  | x :: xs => f i x ++ elemsFrom f (S i) xs
  end.

(** Builder [b'] is builder [b] with [data] appended and no error. *)
Definition extends (b b' : GCSBuilder) (data : list bytes) : Prop :=
  b_err b' = None ∧ b_data b' = b_data b ++ data
  ∧ b_p b' = b_p b ∧ b_key b' = b_key b.

End elements.

Section driver_vocabulary.
Context `{Chain, Gcs, Os, Client}.

(** The bytes of a filter after the nil-to-empty substitution. *)
Definition filterBytes (f : option Filter) : result bytes :=
  NBytes (default zeroFilter f).

(** The server's filters and headers for a block equal the local ones. *)
Definition serverAgrees (blockHash : Hash) (basicFilter extFilter : option Filter)
    (basicHeader extHeader : Hash) : Prop :=
  (∃ f, GetCFilter blockHash GCSFilterRegular = Ok f
        ∧ filterBytes basicFilter = Ok (Data f))
  ∧ (∃ f, GetCFilter blockHash GCSFilterExtended = Ok f
          ∧ filterBytes extFilter = Ok (Data f))
  ∧ (∃ hd, GetCFilterHeader blockHash GCSFilterRegular = Ok hd
           ∧ PrevFilterHeader hd = basicHeader)
  ∧ (∃ hd, GetCFilterHeader blockHash GCSFilterExtended = Ok hd
           ∧ PrevFilterHeader hd = extHeader).


(** The writer that [files[i]] points to. *)
Definition writerOf (s : State) (i : nat) : option JSONTestWriter :=
  match files s !! i with
  | Some (Some a) => heap s !! a
  | _ => None
  end.

(** What the filters and headers of one round are: the results of the two
    builds, the two previous headers read from slot [i], and the two new
    headers. *)
Record Built := {
  basicFilter : option Filter;
  extFilter : option Filter;
  prevBasic : Hash;
  prevExt : Hash;
  basicHeader : Hash;
  extHeader : Hash
}.

Definition built (block : MsgBlock) (i : nat) (s : State) (b : Built) : Prop :=
  buildBasicFilter block (uint8 (Z.of_nat i)) = Ok (basicFilter b)
  ∧ prevBasicHeaders s !! i = Some (prevBasic b)
  ∧ MakeHeaderForFilter (basicFilter b) (prevBasic b) = Ok (basicHeader b)
  ∧ buildExtFilter block (uint8 (Z.of_nat i)) = Ok (extFilter b)
  ∧ prevExtHeaders s !! i = Some (prevExt b)
  ∧ MakeHeaderForFilter (extFilter b) (prevExt b) = Ok (extHeader b).

(** The row of one round. *)
Definition rowOf (c : testBlockCase) (height : Z) (blockHash : Hash)
    (blockBytes : bytes) (b : Built) (bfBytes efBytes : bytes) : Row :=
  testRow c height blockHash blockBytes (prevBasic b) (prevExt b)
    bfBytes efBytes (basicHeader b) (extHeader b).

(** State [s1] is state [s] after the row of the round has been written to
    the file of [i]. *)
Definition rowWritten (c : testBlockCase) (height : Z) (blockHash : Hash)
    (blockBytes : bytes) (b : Built) (i : nat) (s s1 : State) : Prop :=
  ∃ bfBytes efBytes a w w',
    filterBytes (basicFilter b) = Ok bfBytes
    ∧ filterBytes (extFilter b) = Ok efBytes
    ∧ files s !! i = Some (Some a)
    ∧ heap s !! a = Some w
    ∧ WriteTestCase w (rowOf c height blockHash blockBytes b bfBytes efBytes)
      = (w', None)
    ∧ s1 = set_heap (<[a := w']> (heap s)) s.

(** State [s'] is state [s] after a complete round for [i]. *)
Definition iterated (cases : list testBlockCase) (testBlockIndex : nat)
    (height : Z) (blockHash : Hash) (block : MsgBlock) (blockBytes : bytes)
    (i : nat) (s s' : State) : Prop :=
  ∃ b c s1,
    built block i s b
    ∧ (Z.of_nat i = DefaultP →
       serverAgrees blockHash (basicFilter b) (extFilter b)
         (basicHeader b) (extHeader b))
    ∧ cases !! testBlockIndex = Some c
    ∧ (if decide (uint32 height = Case.height c)
       then rowWritten c height blockHash blockBytes b i s s1
       else s1 = s)
    ∧ (i < length (prevBasicHeaders s))%nat
    ∧ (i < length (prevExtHeaders s))%nat
    ∧ s' = set_prevExtHeaders (<[i := extHeader b]> (prevExtHeaders s1))
             (set_prevBasicHeaders (<[i := basicHeader b]> (prevBasicHeaders s1)) s1).

(** State [s'] differs from state [s] at most in the writer of slot [i]. *)
Definition onlyWriter (i : nat) (s s' : State) : Prop :=
  prevBasicHeaders s' = prevBasicHeaders s
  ∧ prevExtHeaders s' = prevExtHeaders s
  ∧ files s' = files s
  ∧ deferred s' = deferred s
  ∧ (heap s' = heap s
     ∨ ∃ a w', files s !! i = Some (Some a) ∧ (a < length (heap s))%nat
               ∧ heap s' = <[a := w']> (heap s)).

(** No two slots of [files] point to the same writer. *)
Definition distinctFiles (s : State) : Prop :=
  ∀ i j a, files s !! i = Some (Some a) → files s !! j = Some (Some a) → i = j.

(** The state [main] is in when it reaches the loop over the heights: three
    slices of 33 slots, zero headers, a nil pointer in slot 0 and a writer of
    its own, with the column row written, behind every other slot. *)
Definition ready (s : State) : Prop :=
  prevBasicHeaders s = replicate 33 zeroHash
  ∧ prevExtHeaders s = replicate 33 zeroHash
  ∧ length (files s) = 33%nat
  ∧ files s !! 0%nat = Some None
  ∧ (∀ i, (1 ≤ i ≤ 32)%nat → files s !! i = Some (Some (i - 1)%nat))
  ∧ length (heap s) = 32%nat
  ∧ (∀ a w, heap s !! a = Some w → firstRowWritten w = true).

(** Two states agree on slot [i] of the three slices and on the writer
    behind it. *)
Definition agreeOn (i : nat) (s1 s2 : State) : Prop :=
  prevBasicHeaders s1 !! i = prevBasicHeaders s2 !! i
  ∧ prevExtHeaders s1 !! i = prevExtHeaders s2 !! i
  ∧ files s1 !! i = files s2 !! i
  ∧ (∀ a, files s1 !! i = Some (Some a) → heap s1 !! a = heap s2 !! a).

(** Two outcomes are the same up to a relation on the states they end in. *)
Definition sameOutcome {A} (R : State → State → Prop) (r1 r2 : step A) : Prop :=
  match r1, r2 with
  | Next a1 t1, Next a2 t2 => a1 = a2 ∧ R t1 t2
  | Halt w1 t1, Halt w2 t2 => w1 = w2 ∧ R t1 t2
  | _, _ => False
  end.

(** Slot [i] as state [s'] holds it is slot [i] of state [s] after one
    round: the two headers are those built from the headers of [s], and the
    writer has received the row of the round if the height is a test height
    and is untouched otherwise. *)
Definition slotRound (cases : list testBlockCase) (testBlockIndex : nat)
    (height : Z) (blockHash : Hash) (block : MsgBlock) (blockBytes : bytes)
    (i : nat) (s s' : State) : Prop :=
  ∃ b c,
    built block i s b
    ∧ (Z.of_nat i = DefaultP →
       serverAgrees blockHash (basicFilter b) (extFilter b)
         (basicHeader b) (extHeader b))
    ∧ cases !! testBlockIndex = Some c
    ∧ prevBasicHeaders s' !! i = Some (basicHeader b)
    ∧ prevExtHeaders s' !! i = Some (extHeader b)
    ∧ (if decide (uint32 height = Case.height c)
       then ∃ bfBytes efBytes w w',
              filterBytes (basicFilter b) = Ok bfBytes
              ∧ filterBytes (extFilter b) = Ok efBytes
              ∧ writerOf s i = Some w
              ∧ WriteTestCase w (rowOf c height blockHash blockBytes b bfBytes efBytes)
                = (w', None)
              ∧ writerOf s' i = Some w'
       else writerOf s' i = writerOf s i).

(** Slot [j] is the same in both states. *)
Definition slotKept (j : nat) (s s' : State) : Prop :=
  prevBasicHeaders s' !! j = prevBasicHeaders s !! j
  ∧ prevExtHeaders s' !! j = prevExtHeaders s !! j
  ∧ writerOf s' j = writerOf s j.

(** What stays fixed while the loops run. *)
Definition sameShape (s s' : State) : Prop :=
  files s' = files s
  ∧ deferred s' = deferred s
  ∧ length (heap s') = length (heap s)
  ∧ length (prevBasicHeaders s') = length (prevBasicHeaders s)
  ∧ length (prevExtHeaders s') = length (prevExtHeaders s).

(** [n] output files have been opened: the state of [main] after [n] rounds
    of its first loop. *)
Definition opened (n : nat) (s : State) : Prop :=
  prevBasicHeaders s = replicate 33 zeroHash
  ∧ prevExtHeaders s = replicate 33 zeroHash
  ∧ length (files s) = 33%nat
  ∧ (∀ i, (1 ≤ i ≤ n)%nat → files s !! i = Some (Some (i - 1)%nat))
  ∧ (∀ i, (i = 0 ∨ n < i < 33)%nat → files s !! i = Some None)
  ∧ length (heap s) = n
  ∧ (∀ a w, heap s !! a = Some w → firstRowWritten w = true).

(** The largest test height, [-1] when there is none. *)
Definition lastHeight (cases : list testBlockCase) : Z :=
  foldr Z.max (-1) (Case.height <$> cases).

(** [rowBytes] is the encoding of a row for case [c]: a row of ten cells
    that starts with the height of [c] and ends with its comment. *)
Definition isRowFor (rowBytes : bytes) (c : testBlockCase) : Prop :=
  ∃ row, Marshal row = Ok rowBytes
         ∧ length row = 10%nat
         ∧ row !! 0%nat = Some (CInt (Case.height c))
         ∧ row !! 9%nat = Some (CStr (Case.comment c)).

(** Every output slot has a writer behind it that has written a row. *)
Definition writersOpen (s : State) : Prop :=
  ∀ i, (1 ≤ i ≤ 32)%nat → ∃ w, writerOf s i = Some w ∧ firstRowWritten w = true.

(** The state an outcome ends in. *)
Definition stateOf {A} (r : step A) : State :=
  match r with
  | Next _ s => s
  | Halt _ s => s
  end.

(** A computation that treats states that are related alike. *)
Definition respects {A} (R : State → State → Prop) (m : M A) : Prop :=
  ∀ s1 s2, R s1 s2 → sameOutcome R (m s1) (m s2).

(** A computation that neither reads nor writes the state. *)
Definition stateless {A} (m : M A) : Prop :=
  (∃ a, ∀ s, m s = Next a s) ∨ (∃ w, ∀ s, m s = Halt w s).

(** The heights of the cases increase strictly and fit [uint32]. *)
Definition sortedCases (cases : list testBlockCase) : Prop :=
  Sorted Z.lt (Case.height <$> cases)
  ∧ Forall (λ c, 0 ≤ Case.height c < 2 ^ 32) cases.

(** The chunks one row adds to a file that already holds a row. *)
Definition rowChunks (rowBytes : bytes) : list bytes :=
  [bytesOf ("," +:+ LF); rowBytes].

End driver_vocabulary.

(** ** Scenes in the concrete world *)

Module scene.
Import demo.

(** The state of [main] when it reaches the first block, and after the
    first 18 rounds of height 0, with the stale server. *)
Definition s0 : State :=
  match setup (H1 := os) (H2 := client) start with
  | Next _ s => s
  | Halt _ s => s
  end.




End scene.

(** ** Vocabulary of the writer, of the exits and of the output *)

Section writer_vocabulary.
Context `{Os}.

(** A caller that writes rows one after the other and stops at the first
    error, as [main] does with each of its files. *)
Fixpoint writeRows (w : JSONTestWriter) (rows : list Row)
    : JSONTestWriter * option error :=
  match rows with
  | [] => (w, None)
  | row :: rows =>
      let '(w', err) := WriteTestCase w row in
      match err with
      | Some e => (w', Some e)
      | None => writeRows w' rows
      end
  end.

(** The separator [WriteTestCase] writes before a row. *)
Definition separator (w : JSONTestWriter) : bytes :=
  if firstRowWritten w then bytesOf ("," +:+ LF) else bytesOf ("[" +:+ LF).

Definition closing : bytes := bytesOf (LF +:+ "]" +:+ LF).

(** The chunks of a complete file: nothing for no row, otherwise the opening
    bracket, the rows with a separator between them, the closing bracket. *)
Definition framed (rowBytes : list bytes) : list bytes :=
  match rowBytes with
  | [] => []
  | r :: rs => [bytesOf ("[" +:+ LF); r] ++ (rs ≫= rowChunks) ++ [closing]
  end.

End writer_vocabulary.

Section exit_vocabulary.
Context `{Chain, Gcs, Os, Client}.

(** Every writer on the heap has its [Close] deferred, latest first. *)
Definition tracked (s : State) : Prop :=
  deferred s = reverse (seq 0 (length (heap s))).

(** The slices have their 33 slots and every output slot points to a writer
    on the heap. *)
Definition running (s : State) : Prop :=
  length (prevBasicHeaders s) = 33%nat
  ∧ length (prevExtHeaders s) = 33%nat
  ∧ length (files s) = 33%nat
  ∧ ∀ i, (1 ≤ i ≤ 32)%nat →
      ∃ a, files s !! i = Some (Some a) ∧ (a < length (heap s))%nat.

(** A computation keeps [P] however it ends. *)
Definition keeps {A} (P : State → Prop) (m : M A) : Prop :=
  ∀ s, P s → P (stateOf (m s)).

(** A computation keeps [P] however it ends and does not end in a panic. *)
Definition sound {A} (P : State → Prop) (m : M A) : Prop :=
  ∀ s, P s → P (stateOf (m s)) ∧ ∀ msg s', m s ≠ Halt (Panic msg) s'.

(** A property of the state that looks at the lengths and at [files] and
    [deferred] only: writing a slot of a header slice or replacing a writer
    on the heap keeps it. *)
Definition shapeInvariant (P : State → Prop) : Prop :=
  (∀ s a w', P s → (a < length (heap s))%nat → P (set_heap (<[a := w']> (heap s)) s))
  ∧ (∀ s i x, P s → (i < length (prevBasicHeaders s))%nat →
       P (set_prevBasicHeaders (<[i := x]> (prevBasicHeaders s)) s))
  ∧ (∀ s i x, P s → (i < length (prevExtHeaders s))%nat →
       P (set_prevExtHeaders (<[i := x]> (prevExtHeaders s)) s)).

(** What the deferred calls make of a writer: [Close], then the file is
    closed. *)
Definition closed (w : JSONTestWriter) : JSONTestWriter :=
  {| writer := closeFile (writer (Close w).1);
     firstRowWritten := firstRowWritten (Close w).1 |}.

End exit_vocabulary.

Section output_vocabulary.
Context `{Chain, Gcs, Os, Client}.

(** Writer [w] is as the set-up leaves the writer of parameter [i]: an open
    file of that name holding the opening bracket and the column row. *)
Definition freshFile (i : nat) (w : JSONTestWriter) : Prop :=
  f_name (writer w) = fName i
  ∧ f_closed (writer w) = false
  ∧ firstRowWritten w = true
  ∧ ∃ colBytes, Marshal [CStr columns] = Ok colBytes
                ∧ f_data (writer w) = [bytesOf ("[" +:+ LF); colBytes].

(** The writers of state [s] are those of the heap [h0], each with the file
    name and the open flag it had there and, once it has written a row,
    still marked so. *)
Definition writersLike (h0 : list JSONTestWriter) (s : State) : Prop :=
  length (heap s) = length h0
  ∧ ∀ a w0 w, h0 !! a = Some w0 → heap s !! a = Some w →
      f_name (writer w) = f_name (writer w0)
      ∧ f_closed (writer w) = f_closed (writer w0)
      ∧ (firstRowWritten w0 = true → firstRowWritten w = true).

End output_vocabulary.

Section run_vocabulary.
Context `{Chain, Gcs, Os, Client}.

(** Height [h] went through a whole round of the loop over the heights: the
    block was fetched and serialised, both filters were built for every
    parameter from 1 to 32, and for the default parameter the bytes of both
    filters are the bytes the server holds for the block. *)
Definition checkedHeight (h : Z) : Prop :=
  ∃ blockHash block blockBytes,
    GetBlockHash h = Ok blockHash
    ∧ GetBlock blockHash = Ok block
    ∧ Serialize block = Ok blockBytes
    ∧ ∀ i, (1 ≤ i ≤ 32)%nat →
        ∃ bf ef,
          buildBasicFilter block (uint8 (Z.of_nat i)) = Ok bf
          ∧ buildExtFilter block (uint8 (Z.of_nat i)) = Ok ef
          ∧ (Z.of_nat i = DefaultP →
             (∃ f, GetCFilter blockHash GCSFilterRegular = Ok f
                   ∧ filterBytes bf = Ok (Data f))
             ∧ (∃ f, GetCFilter blockHash GCSFilterExtended = Ok f
                     ∧ filterBytes ef = Ok (Data f))).

End run_vocabulary.

(** ** A disk that fails *)

Module trial.
Import demo.


Definition emptyFile : File :=
  {| f_name := fName 1; f_data := []; f_closed := false |}.

Definition rows : list Row :=
  [ [CInt 0; CStr "Genesis block"]; [CInt 2; CStr ""] ].

End trial.

(** * Properties *)

(** ** The element extractors *)

Section extractor_facts.
Context `{Chain, Gcs}.

Lemma extends_refl b : b_err b = None → extends b b [].
Proof. intros Hb. unfold extends. by rewrite app_nil_r. Qed.

Lemma extends_trans b1 b2 b3 d1 d2 :
  extends b1 b2 d1 → extends b2 b3 d2 → extends b1 b3 (d1 ++ d2).
Proof.
  intros (He1 & Hd1 & Hp1 & Hk1) (He2 & Hd2 & Hp2 & Hk2). unfold extends.
  rewrite Hd2, Hd1, Hp2, Hk2, <-app_assoc. done.
Qed.

Lemma AddEntries_extends data b : b_err b = None → extends b (AddEntries data b) data.
Proof. intros Hb. unfold extends, AddEntries. rewrite Hb. done. Qed.

(** A [range] loop whose body appends [f i x] appends all of them in order. *)
Lemma rangeFrom_extends {A} (body : nat → A → GCSBuilder → GCSBuilder)
    (f : nat → A → list bytes) :
  (∀ i x b, b_err b = None → extends b (body i x b) (f i x)) →
  ∀ xs i b, b_err b = None → extends b (rangeFrom body i xs b) (elemsFrom f i xs).
Proof.
  intros Hbody xs. induction xs as [|x xs IH]; intros i b Hb; simpl.
  - by apply extends_refl.
  - pose proof (Hbody i x b Hb) as Hx.
    eapply extends_trans; [exact Hx|]. apply IH, Hx.
Qed.

Lemma elemsFrom_const {A} (g : A → list bytes) xs i :
  elemsFrom (λ _, g) i xs = xs ≫= g.
Proof. revert i. induction xs as [|x xs IH]; intros i; simpl; [done|]. by rewrite IH. Qed.

Lemma elemsFrom_singleton {A} (g : A → bytes) xs i :
  elemsFrom (λ _ x, [g x]) i xs = g <$> xs.
Proof. revert i. induction xs as [|x xs IH]; intros i; simpl; [done|]. by rewrite IH. Qed.

Lemma basicTx_extends i tx b :
  b_err b = None → extends b (basicTx i tx b) (basicElems i tx).
Proof.
  intros Hb. unfold basicTx, basicElems, AddHash, AddEntry.
  pose proof (AddEntries_extends [TxHash tx] b Hb) as H1.
  eapply extends_trans; [exact H1|].
  set (b1 := AddEntries [TxHash tx] b) in *.
  assert (b_err b1 = None) as He1 by apply H1.
  set (b2 := if decide (i ≠ 0%nat)
             then rangeFrom (λ _ txIn, AddOutPoint (PreviousOutPoint txIn)) 0 (TxIn_ tx) b1
             else b1).
  assert (extends b1 b2
            (if decide (i ≠ 0%nat)
             then (λ txIn, writeOutPoint (PreviousOutPoint txIn)) <$> TxIn_ tx else []))
    as H2.
  { subst b2. destruct (decide (i ≠ 0%nat)); [|by apply extends_refl].
    rewrite <-(elemsFrom_singleton _ _ 0).
    apply (rangeFrom_extends (λ _ txIn, AddOutPoint (PreviousOutPoint txIn))
             (λ _ txIn, [writeOutPoint (PreviousOutPoint txIn)])); [|done].
    intros _ x b' Hb'. by apply AddEntries_extends. }
  eapply extends_trans; [exact H2|].
  rewrite <-(elemsFrom_singleton _ _ 0).
  apply (rangeFrom_extends (λ _ txOut, AddEntry (PkScript txOut))
           (λ _ txOut, [PkScript txOut])); [|apply H2].
  intros _ x b' Hb'. by apply AddEntries_extends.
Qed.

Lemma AddScript_extends script b :
  b_err b = None → extends b (AddScript script b) (pushedItems script).
Proof.
  intros Hb. unfold AddScript, pushedItems.
  destruct (PushedData script); [by apply AddEntries_extends|by apply extends_refl].
Qed.

Lemma extTxIn_extends txIn b :
  b_err b = None → extends b (extTxIn txIn b) (extInElems txIn).
Proof.
  intros Hb. unfold extTxIn, extInElems.
  set (b1 := match SignatureScript txIn with
             | Some script => AddScript script b
             | None => b
             end).
  assert (extends b b1 match SignatureScript txIn with
                       | Some script => pushedItems script
                       | None => []
                       end) as H1.
  { subst b1. destruct (SignatureScript txIn);
      [by apply AddScript_extends|by apply extends_refl]. }
  eapply extends_trans; [exact H1|].
  destruct (decide (length (Witness txIn) ≠ 0%nat)) as [Hw|Hw].
  - apply AddEntries_extends, H1.
  - destruct (Witness txIn); [|by destruct Hw]. apply extends_refl, H1.
Qed.

Lemma extTx_extends i tx b :
  b_err b = None → extends b (extTx i tx b) (extElems i tx).
Proof.
  intros Hb. unfold extTx, extElems.
  destruct (decide (i ≠ 0%nat)); [|by apply extends_refl].
  rewrite <-(elemsFrom_const _ _ 0).
  apply (rangeFrom_extends (λ _ txIn, extTxIn txIn) (λ _, extInElems)); [|done].
  intros _ x b' Hb'. by apply extTxIn_extends.
Qed.

Lemma WithKeyHashP_ok keyHash p :
  p ≤ 32 → b_err (WithKeyHashP keyHash p) = None.
Proof. intros Hp. unfold WithKeyHashP; simpl. by rewrite decide_False by lia. Qed.

(** The entries [buildBasicFilter] hands to the encoder. *)
Lemma basicBuilder_data block p :
  p ≤ 32 → b_data (basicBuilder block p) = elemsFrom basicElems 0 (Transactions block).
Proof.
  intros Hp. unfold basicBuilder.
  by destruct (rangeFrom_extends basicTx basicElems basicTx_extends
                 (Transactions block) 0%nat _ (WithKeyHashP_ok (BlockHash block) p Hp))
    as (_ & -> & _).
Qed.

(** The entries [buildExtFilter] hands to the encoder. *)
Lemma extBuilder_data block p :
  p ≤ 32 → b_data (extBuilder block p) = elemsFrom extElems 0 (Transactions block).
Proof.
  intros Hp. unfold extBuilder.
  by destruct (rangeFrom_extends extTx extElems extTx_extends
                 (Transactions block) 0%nat _ (WithKeyHashP_ok (BlockHash block) p Hp))
    as (_ & -> & _).
Qed.

Lemma buildBasicFilter_encodes block p :
  p ≤ 32 →
  buildBasicFilter block p
  = BuildGCSFilter p (DeriveKey (BlockHash block)) (b_data (basicBuilder block p)).
Proof.
  intros Hp. unfold buildBasicFilter, Key_, Build. fold (basicBuilder block p).
  rewrite WithKeyHashP_ok by done.
  destruct (rangeFrom_extends basicTx basicElems basicTx_extends
              (Transactions block) 0%nat _ (WithKeyHashP_ok (BlockHash block) p Hp))
    as (He & _ & Hp' & Hk).
  fold (basicBuilder block p) in He, Hp', Hk. by rewrite He, Hp', Hk.
Qed.

Lemma buildExtFilter_encodes block p :
  p ≤ 32 →
  buildExtFilter block p
  = BuildGCSFilter p (DeriveKey (BlockHash block)) (b_data (extBuilder block p)).
Proof.
  intros Hp. unfold buildExtFilter, Key_, Build. fold (extBuilder block p).
  rewrite WithKeyHashP_ok by done.
  destruct (rangeFrom_extends extTx extElems extTx_extends
              (Transactions block) 0%nat _ (WithKeyHashP_ok (BlockHash block) p Hp))
    as (He & _ & Hp' & Hk).
  fold (extBuilder block p) in He, Hp', Hk. by rewrite He, Hp', Hk.
Qed.

Lemma elem_of_elemsFrom {A} (f : nat → A → list bytes) xs i e :
  e ∈ elemsFrom f i xs ↔ ∃ k x, xs !! k = Some x ∧ e ∈ f (i + k)%nat x.
Proof.
  revert i. induction xs as [|x xs IH]; intros i; simpl.
  - rewrite elem_of_nil. split; [done|]. by intros (k & y & Hk & _).
  - rewrite elem_of_app, IH. split.
    + intros [He|(k & y & Hk & He)].
      * exists 0%nat, x. by rewrite Nat.add_0_r.
      * exists (S k), y. by rewrite Nat.add_succ_r.
    + intros ([|k] & y & Hk & He); simpl in Hk.
      * left. injection Hk as ->. by rewrite Nat.add_0_r in He.
      * right. exists k, y. by rewrite Nat.add_succ_r in He.
Qed.

Lemma elem_of_extInElems txIn e :
  e ∈ extInElems txIn ↔
    (∃ script data, SignatureScript txIn = Some script
                    ∧ PushedData script = Ok data ∧ e ∈ data)
    ∨ e ∈ Witness txIn.
Proof.
  unfold extInElems, pushedItems. rewrite elem_of_app. split.
  - intros [He|He]; [left|by right].
    destruct (SignatureScript txIn) as [script|]; [|by apply elem_of_nil in He].
    destruct (PushedData script) as [data|] eqn:Hd; [|by apply elem_of_nil in He].
    by exists script, data.
  - intros [(script & data & -> & -> & He)|He]; [by left|by right].
Qed.

(** The basic element set as the code builds it: the hash of every
    transaction, the serialised outpoint of every input of a transaction
    other than the first, and the whole locking script of every output. *)
Lemma basic_elements block p e :
  p ≤ 32 →
  e ∈ b_data (basicBuilder block p) ↔
    (∃ tx, tx ∈ Transactions block ∧ e = TxHash tx)
    ∨ (∃ k tx txIn, Transactions block !! k = Some tx ∧ k ≠ 0%nat
                    ∧ txIn ∈ TxIn_ tx ∧ e = writeOutPoint (PreviousOutPoint txIn))
    ∨ (∃ tx txOut, tx ∈ Transactions block ∧ txOut ∈ TxOut_ tx ∧ e = PkScript txOut).
Proof.
  intros Hp. rewrite basicBuilder_data, elem_of_elemsFrom by done. split.
  - intros (k & tx & Hk & He). unfold basicElems in He.
    rewrite !elem_of_app, list_elem_of_singleton in He.
    destruct He as [->|[He|He]].
    + left. exists tx. split; [|done]. by eapply list_elem_of_lookup_2.
    + right; left. simpl in He. destruct (decide (k ≠ 0%nat)); [|by apply elem_of_nil in He].
      apply list_elem_of_fmap in He as (txIn & -> & Hin). by exists k, tx, txIn.
    + right; right. apply list_elem_of_fmap in He as (txOut & -> & Hout).
      exists tx, txOut. split; [|done]. by eapply list_elem_of_lookup_2.
  - intros [(tx & Htx & ->)|[(k & tx & txIn & Hk & Hk0 & Hin & ->)|(tx & txOut & Htx & Hout & ->)]].
    + apply list_elem_of_lookup_1 in Htx as (k & Hk). exists k, tx. split; [done|].
      unfold basicElems. rewrite elem_of_app, list_elem_of_singleton. by left.
    + exists k, tx. split; [done|]. unfold basicElems.
      change (0 + k)%nat with k.
      rewrite !elem_of_app. right; left. rewrite decide_True by done.
      apply list_elem_of_fmap. by exists txIn.
    + apply list_elem_of_lookup_1 in Htx as (k & Hk). exists k, tx. split; [done|].
      unfold basicElems. rewrite !elem_of_app. right; right.
      apply list_elem_of_fmap. by exists txOut.
Qed.

(** C2. The extended element set consists exactly of, for every input of a
    transaction other than the first (the coinbase), the data pushes of its
    signature script when it has one and the items of its witness stack when
    it has one.  The first transaction adds nothing to the extended set, and
    to the basic set it adds its hash and its output scripts only, whatever
    its inputs are. *)
Theorem extended_filter_elements block p :
  p ≤ 32 →
  buildExtFilter block p
    = BuildGCSFilter p (DeriveKey (BlockHash block)) (b_data (extBuilder block p))
  ∧ (∀ e, e ∈ b_data (extBuilder block p) ↔
       ∃ k tx txIn, Transactions block !! k = Some tx ∧ k ≠ 0%nat ∧ txIn ∈ TxIn_ tx
         ∧ ((∃ script data, SignatureScript txIn = Some script
                            ∧ PushedData script = Ok data ∧ e ∈ data)
            ∨ e ∈ Witness txIn))
  ∧ (∀ coinbase rest, Transactions block = coinbase :: rest →
       b_data (extBuilder block p) = elemsFrom extElems 1 rest
       ∧ b_data (basicBuilder block p)
         = TxHash coinbase :: (PkScript <$> TxOut_ coinbase)
           ++ elemsFrom basicElems 1 rest).
Proof.
  intros Hp. split; [by apply buildExtFilter_encodes|]. split.
  - intros e. rewrite extBuilder_data, elem_of_elemsFrom by done. split.
    + intros (k & tx & Hk & He). unfold extElems in He. simpl in He.
      destruct (decide (k ≠ 0%nat)); [|by apply elem_of_nil in He].
      apply list_elem_of_bind in He as (txIn & He & Hin).
      exists k, tx, txIn. by rewrite <-elem_of_extInElems.
    + intros (k & tx & txIn & Hk & Hk0 & Hin & He).
      exists k, tx. split; [done|]. unfold extElems. simpl.
      rewrite decide_True by done. apply list_elem_of_bind.
      exists txIn. by rewrite elem_of_extInElems.
  - intros coinbase rest Htxs.
    rewrite extBuilder_data, basicBuilder_data, Htxs by done. simpl.
    unfold extElems at 1. unfold basicElems at 1. simpl. done.
Qed.

End extractor_facts.

(** The extended set of the demo block at height 0: the two bytes pushed by
    the signature script of the spending input and its one witness item; the
    coinbase adds nothing. *)
Lemma extended_filter_elements_witness :
  19 ≤ 32
  ∧ b_data (extBuilder (H := demo.chain) (H0 := demo.gcs) (demo.blockAt 0) 19)
    = elemsFrom (extElems (H := demo.chain)) 1 [demo.spend 0].
Proof.
  split; [lia|].
  destruct (extended_filter_elements (H := demo.chain) (H0 := demo.gcs)
              (demo.blockAt 0) 19 ltac:(lia)) as (_ & _ & Hcb).
  exact (proj1 (Hcb (demo.coinbase 0) [demo.spend 0] eq_refl)).
Defined.

(** C1, at a block the code can receive.  The block holds one coinbase
    transaction whose only output has the locking script [01 aa] (push the
    single byte [aa]).  The claim puts the pushed item [aa] into the basic
    set; [buildBasicFilter] hands the encoder the transaction hash and the
    whole script [01 aa], and [aa] is not among the entries. *)
Theorem basic_filter_takes_whole_script :
  PushedData (Chain := demo.chain) [Byte.x01; Byte.xaa] = Ok [[Byte.xaa]]
  ∧ b_data (basicBuilder (H := demo.chain) (H0 := demo.gcs) (demo.blockAt 1) 19)
    = [TxHash (Chain := demo.chain) (demo.coinbase 1); [Byte.x01; Byte.xaa]]
  ∧ [Byte.xaa] ∉ b_data (basicBuilder (H := demo.chain) (H0 := demo.gcs) (demo.blockAt 1) 19).
Proof.
  split; [done|]. split; [done|].
  vm_compute. intros Hin. repeat (inversion Hin as [|? ? ? Hin']; subst; clear Hin; rename Hin' into Hin).
Qed.

(** ** One round of the driver *)

Section round_facts.
Context `{Chain, Gcs, Os, Client}.

Lemma bind_Next {A B} (m : M A) (k : A → M B) s b s' :
  (m ≫= k) s = Next b s' ↔ ∃ a s1, m s = Next a s1 ∧ k a s1 = Next b s'.
Proof.
  unfold mbind, M_bind. destruct (m s) as [a s1|w s1]; split.
  - intros Hk. by exists a, s1.
  - by intros (a' & s1' & [= -> ->] & Hk).
  - done.
  - by intros (a' & s1' & [=] & _).
Qed.

Lemma bind_Halt {A B} (m : M A) (k : A → M B) s w s' :
  (m ≫= k) s = Halt w s' ↔
    m s = Halt w s' ∨ ∃ a s1, m s = Next a s1 ∧ k a s1 = Halt w s'.
Proof.
  unfold mbind, M_bind. destruct (m s) as [a s1|w1 s1]; split.
  - intros Hk. right. by exists a, s1.
  - intros [[=]|(a' & s1' & [= -> ->] & Hk)]. done.
  - intros [= -> ->]. by left.
  - intros [[= -> ->]|(a' & s1' & [=] & _)]. done.
Qed.

Lemma orEmpty_Some f g : orEmpty f = Some g → g = default zeroFilter f.
Proof. destruct f; simpl; congruence. Qed.

Lemma orEmpty_None f : orEmpty f ≠ None.
Proof. by destruct f. Qed.

Lemma NBytesOf_orEmpty f s : NBytesOf (orEmpty f) s = Next (filterBytes f) s.
Proof. by destruct f. Qed.

Ltac unfold_driver :=
  unfold iteration, crossCheck, emitRow, writeRow, callWriter, caseAt, NBytesOf,
    try, check, abort, halt, readSlot, writeSlot;
  unfold mbind, M_bind, mret, M_ret.

Ltac tidy :=
  repeat match goal with
  | H : orEmpty _ = Some _ |- _ => apply orEmpty_Some in H; subst
  | H : orEmpty _ = None |- _ => by apply orEmpty_None in H
  end;
  repeat match goal with H : decide _ = _ |- _ => clear H end;
  repeat match goal with H : ¬ _ ≠ _ |- _ => apply dec_stable in H end.

Ltac out_of_range :=
  exfalso;
  match goal with
  | Hl : ?l !! ?i = Some _, Hn : ¬ (?i < length ?l)%nat |- _ =>
      apply Hn; eapply lookup_lt_Some, Hl
  end.

(** A round that runs to its end does what [iterated] says. *)
Lemma iteration_Next cases idx h bh block bb i s s' :
  iteration cases idx h bh block bb i s = Next tt s' →
  iterated cases idx h bh block bb i s s'.
Proof.
  unfold_driver. intros Hrun.
  repeat (case_match; simplify_eq/=); tidy.
  all: match goal with
       | Hbf : buildBasicFilter _ _ = Ok ?bf, Hef : buildExtFilter _ _ = Ok ?ef,
         Hpb : prevBasicHeaders _ !! _ = Some ?pb, Hpe : prevExtHeaders _ !! _ = Some ?pe,
         Hbh : MakeHeaderForFilter ?bf ?pb = Ok ?bhd,
         Heh : MakeHeaderForFilter ?ef ?pe = Ok ?ehd,
         Hc : _ !! _ = Some ?c |- _ =>
           eexists (Build_Built bf ef pb pe bhd ehd), c, _
       end.
  all: unfold built, serverAgrees, rowWritten, rowOf, filterBytes; simpl.
  all: split; [by split_and!|]; split; [try done; intros _; subst; split_and!; eauto|].
  all: split; [done|]; split;
    [first [rewrite decide_True by done; eexists _, _, _, _, _; split_and!; done
           |rewrite decide_False by done; reflexivity]|].
  all: by split_and!.
Qed.

(** A round that stops early has changed nothing but, at most, the writer
    of its slot; in particular no header.  It never stops for lack of fuel. *)
Lemma iteration_Halt cases idx h bh block bb i s w s' :
  iteration cases idx h bh block bb i s = Halt w s' →
  onlyWriter i s s' ∧ w ≠ OutOfFuel.
Proof.
  unfold_driver. intros Hrun.
  repeat (case_match; simplify_eq/=); tidy.
  all: try (out_of_range; fail).
  all: unfold onlyWriter, indexPanic, nilPanic; simpl; split_and!; try done; eauto 10.
Qed.




End round_facts.

(** ** The loop over the collision parameters *)

Section loop_facts.
Context `{Chain, Gcs, Os, Client}.

Lemma slotKept_refl j s : slotKept j s s.
Proof. done. Qed.

Lemma slotKept_trans j s1 s2 s3 :
  slotKept j s1 s2 → slotKept j s2 s3 → slotKept j s1 s3.
Proof.
  intros (Hb1 & He1 & Hw1) (Hb2 & He2 & Hw2). unfold slotKept.
  by rewrite Hb2, He2, Hw2.
Qed.

Lemma sameShape_refl s : sameShape s s.
Proof. done. Qed.

Lemma sameShape_trans s1 s2 s3 :
  sameShape s1 s2 → sameShape s2 s3 → sameShape s1 s3.
Proof.
  intros (Hf1 & Hd1 & Hh1 & Hb1 & He1) (Hf2 & Hd2 & Hh2 & Hb2 & He2).
  unfold sameShape. by rewrite Hf2, Hd2, Hh2, Hb2, He2.
Qed.

Lemma sameShape_distinct s s' : sameShape s s' → distinctFiles s → distinctFiles s'.
Proof. intros (Hf & _) Hd i j a. rewrite Hf. apply Hd. Qed.

(** Writing to the writer behind slot [i] leaves the writers behind the
    other slots alone. *)
Lemma writerOf_insert_ne s i j a w' :
  distinctFiles s → files s !! i = Some (Some a) → j ≠ i →
  writerOf (set_heap (<[a := w']> (heap s)) s) j = writerOf s j.
Proof.
  intros Hd Hi Hne. unfold writerOf; simpl.
  destruct (files s !! j) as [[a'|]|] eqn:Hj; [|done..].
  apply list_lookup_insert_ne. intros ->. by apply Hne, (Hd j i a').
Qed.

Lemma writerOf_insert_eq s i a w' :
  files s !! i = Some (Some a) → (a < length (heap s))%nat →
  writerOf (set_heap (<[a := w']> (heap s)) s) i = Some w'.
Proof.
  intros Hi Ha. unfold writerOf; simpl. rewrite Hi.
  by apply list_lookup_insert_eq.
Qed.

Lemma onlyWriter_slots i s s' :
  distinctFiles s → onlyWriter i s s' →
  (∀ j, j ≠ i → slotKept j s s') ∧ sameShape s s'.
Proof.
  intros Hd (Hb & He & Hf & Hdf & Hheap). split.
  - intros j Hne. unfold slotKept. rewrite Hb, He. split_and!; [done..|].
    destruct Hheap as [Hheap|(a & w' & Hi & Ha & Hheap)].
    + unfold writerOf. by rewrite Hf, Hheap.
    + rewrite <-(writerOf_insert_ne s i j a w') by done.
      unfold writerOf; simpl. by rewrite Hf, Hheap.
  - unfold sameShape. rewrite Hb, He. split_and!; [done..| |done|done].
    destruct Hheap as [->|(a & w' & _ & _ & ->)]; [done|]. apply length_insert.
Qed.

(** A complete round renews slot [i] and keeps every other slot. *)
Lemma iterated_slots cases idx h bh block bb i s s' :
  distinctFiles s →
  iterated cases idx h bh block bb i s s' →
  slotRound cases idx h bh block bb i s s'
  ∧ (∀ j, j ≠ i → slotKept j s s')
  ∧ sameShape s s'.
Proof.
  intros Hd (b & c & s1 & Hb & Hagree & Hc & Hrow & Hlb & Hle & ->).
  assert (onlyWriter i s s1
          ∧ if decide (uint32 h = Case.height c)
            then ∃ bfBytes efBytes w w',
                   filterBytes (basicFilter b) = Ok bfBytes
                   ∧ filterBytes (extFilter b) = Ok efBytes
                   ∧ writerOf s i = Some w
                   ∧ WriteTestCase w (rowOf c h bh bb b bfBytes efBytes) = (w', None)
                   ∧ writerOf s1 i = Some w'
            else writerOf s1 i = writerOf s i) as [Honly Hw].
  { destruct (decide (uint32 h = Case.height c));
      [|subst; split; [unfold onlyWriter; split_and!; auto|done]].
    destruct Hrow as (bfB & efB & a & w & w' & Hbf & Hef & Hi & Ha & Hwr & ->).
    pose proof (lookup_lt_Some _ _ _ Ha) as Hlt. split.
    - unfold onlyWriter; simpl. split_and!; [done..|]. right. by exists a, w'.
    - exists bfB, efB, w, w'. split_and!; [done..| |done|].
      + unfold writerOf. by rewrite Hi.
      + by apply writerOf_insert_eq. }
  destruct (onlyWriter_slots i s s1 Hd Honly) as [Hkept Hshape].
  destruct Honly as (Hpb & Hpe & Hf & _).
  split; [|split].
  - exists b, c. split_and!; [done..| | |].
    + simpl. rewrite Hpb. by apply list_lookup_insert_eq.
    + simpl. rewrite Hpe. by apply list_lookup_insert_eq.
    + clear Hrow. destruct (decide (uint32 h = Case.height c)); apply Hw.
  - intros j Hne. destruct (Hkept j Hne) as (Hb1 & He1 & Hw1).
    unfold slotKept; simpl. rewrite !list_lookup_insert_ne by done. done.
  - destruct Hshape as (? & ? & ? & ? & ?).
    unfold sameShape; simpl. rewrite !length_insert. done.
Qed.

Lemma built_kept block i s0 s b : slotKept i s0 s → built block i s b → built block i s0 b.
Proof.
  intros (Hb & He & _) (? & ? & ? & ? & ? & ?). unfold built.
  rewrite <-Hb, <-He. done.
Qed.

(** [slotRound] looks at slot [i] of the two states only. *)
Lemma slotRound_pre cases idx h bh block bb i s0 s s' :
  slotKept i s0 s →
  slotRound cases idx h bh block bb i s s' →
  slotRound cases idx h bh block bb i s0 s'.
Proof.
  intros Hk (b & c & Hb & Hagree & Hc & Hpb & Hpe & Hrow).
  exists b, c. split_and!; [by eapply built_kept|done..|].
  destruct Hk as (_ & _ & Hw). rewrite Hw in Hrow. done.
Qed.

Lemma slotRound_post cases idx h bh block bb i s s' s'' :
  slotRound cases idx h bh block bb i s s' →
  slotKept i s' s'' →
  slotRound cases idx h bh block bb i s s''.
Proof.
  intros (b & c & Hb & Hagree & Hc & Hpb & Hpe & Hrow) (Hkb & Hke & Hkw).
  exists b, c. rewrite Hkb, Hke, Hkw. done.
Qed.

(** After rounds [from], ..., [from + n - 1] every one of these slots has
    been renewed once, from its value before the loop, and every other slot
    is as it was. *)
Lemma forRange_rounds cases idx h bh block bb n :
  ∀ from s s',
    distinctFiles s →
    forRange n from (iteration cases idx h bh block bb) s = Next tt s' →
    (∀ i, (from ≤ i < from + n)%nat → slotRound cases idx h bh block bb i s s')
    ∧ (∀ j, ¬ (from ≤ j < from + n)%nat → slotKept j s s')
    ∧ sameShape s s'.
Proof.
  induction n as [|n IH]; intros from s s' Hd Hrun; simpl in Hrun.
  - injection Hrun as <-. split_and!; [lia|done..].
  - apply bind_Next in Hrun as ([] & s1 & Hbody & Hrest).
    apply iteration_Next, iterated_slots in Hbody as (Hround & Hkept & Hshape); [|done].
    destruct (IH (S from) s1 s' (sameShape_distinct _ _ Hshape Hd) Hrest)
      as (Hrounds & Hkepts & Hshapes).
    split_and!.
    + intros i Hi. destruct (decide (i = from)) as [->|Hne].
      * eapply slotRound_post; [done|]. apply Hkepts. lia.
      * eapply slotRound_pre; [by apply Hkept|]. apply Hrounds. lia.
    + intros j Hj. eapply slotKept_trans; [apply Hkept; lia|apply Hkepts; lia].
    + by eapply sameShape_trans.
Qed.


(** The loop stops early only where a round stops early. *)
Lemma forRange_Halt_inv (body : nat → M unit) n :
  ∀ from s w s',
    forRange n from body s = Halt w s' →
    ∃ k s1, (k < n)%nat ∧ forRange k from body s = Next tt s1
            ∧ body (from + k)%nat s1 = Halt w s'.
Proof.
  induction n as [|n IH]; intros from s w s' Hrun; simpl in Hrun; [done|].
  apply bind_Halt in Hrun as [Hrun|([] & s0 & Hfirst & Hrun)].
  - exists 0%nat, s. rewrite Nat.add_0_r. split_and!; [lia|done..].
  - destruct (IH _ _ _ _ Hrun) as (k & s1 & Hk & Hpre & Hbody).
    exists (S k), s1. split_and!; [lia| |by rewrite <-Nat.add_succ_comm].
    simpl. apply bind_Next. by exists tt, s0.
Qed.

End loop_facts.

(** ** The writer, the set-up and one height *)

Section height_facts.
Context `{Chain, Gcs, Os, Client}.

Lemma try_Next {A} msg (r : result A) s a s' :
  try msg r s = Next a s' → r = Ok a ∧ s' = s.
Proof. unfold try, halt, mret, M_ret. by destruct r; intros [=]; subst. Qed.

Lemma try_Halt {A} msg (r : result A) s w s' :
  try msg r s = Halt w s' → w = Fail msg ∧ s' = s.
Proof. unfold try, halt, mret, M_ret. by destruct r; intros [=]; subst. Qed.

Lemma check_Next msg e s s' : check msg e s = Next tt s' → e = None ∧ s' = s.
Proof. unfold check, halt, mret, M_ret. by destruct e; intros [=]; subst. Qed.

Lemma caseAt_Next cases idx s c s' :
  caseAt cases idx s = Next c s' → cases !! idx = Some c ∧ s' = s.
Proof.
  unfold caseAt, halt, mret, M_ret. by destruct (cases !! idx); intros [=]; subst.
Qed.

Lemma caseAt_Halt cases idx s w s' :
  caseAt cases idx s = Halt w s' → w = indexPanic ∧ s' = s.
Proof.
  unfold caseAt, halt, mret, M_ret. by destruct (cases !! idx); intros [=]; subst.
Qed.

(** [WriteTestCase] always leaves [firstRowWritten] set. *)
Lemma WriteTestCase_first w row w' err :
  WriteTestCase w row = (w', err) → firstRowWritten w' = true.
Proof.
  unfold WriteTestCase, WriteString, Write. intros Hw.
  repeat (case_match; simplify_eq/=); done.
Qed.

(** A successful [WriteTestCase] on a writer that has written before appends
    the separator and the encoded row. *)
Lemma WriteTestCase_appends w row w' :
  firstRowWritten w = true →
  WriteTestCase w row = (w', None) →
  ∃ rowBytes, Marshal row = Ok rowBytes
              ∧ f_data (writer w') = f_data (writer w) ++ rowChunks rowBytes
              ∧ f_name (writer w') = f_name (writer w).
Proof.
  unfold WriteTestCase, WriteString, Write, rowChunks. intros Hfirst Hw.
  rewrite Hfirst in Hw.
  repeat (case_match; simplify_eq/=).
  eexists. split; [done|]. by rewrite <-app_assoc.
Qed.

Lemma openFile_Next i s s' :
  openFile i s = Next tt s' →
  ∃ w, firstRowWritten w = true
       ∧ (i < length (files s))%nat
       ∧ s' = set_files (<[i := Some (length (heap s))]> (files s))
                (set_heap (heap s ++ [w])
                   (set_deferred (length (heap s) :: deferred s) s)).
Proof.
  unfold openFile, allocWriter, callWriter, check, halt, readSlot, writeSlot.
  unfold mbind, M_bind, mret, M_ret. simpl. intros Hrun.
  destruct (Create (fName i)); [done|]. simpl in Hrun.
  rewrite lookup_app_r, Nat.sub_diag in Hrun by done. simpl in Hrun.
  repeat (case_match; simplify_eq/=).
  eexists. split; [by eapply WriteTestCase_first|]. split; [done|].
  unfold set_files, set_heap, set_deferred; simpl.
  by rewrite insert_app_r_alt, Nat.sub_diag.
Qed.

Lemma forRange_openFile n :
  ∀ k s s',
    (k + n ≤ 32)%nat → opened k s →
    forRange n (S k) openFile s = Next tt s' → opened (k + n) s'.
Proof.
  induction n as [|n IH]; intros k s s' Hk Hop Hrun; simpl in Hrun.
  - injection Hrun as <-. by rewrite Nat.add_0_r.
  - apply bind_Next in Hrun as ([] & s1 & Hopen & Hrest).
    rewrite <-Nat.add_succ_comm. apply (IH (S k) s1); [lia| |done].
    apply openFile_Next in Hopen as (w & Hw & Hlen & ->).
    destruct Hop as (Hb & He & Hfl & Hptr & Hnil & Hheap & Hfirst).
    unfold opened; simpl. rewrite length_insert, length_app, Hheap; simpl.
    split_and!; [done..| | |lia|].
    + intros i Hi. destruct (decide (i = S k)) as [->|Hne].
      * rewrite list_lookup_insert_eq by done. do 2 f_equal. lia.
      * rewrite list_lookup_insert_ne by done. apply Hptr. lia.
    + intros i Hi. rewrite list_lookup_insert_ne by lia. apply Hnil. lia.
    + intros a w0 Ha. apply lookup_app_Some in Ha as [Ha|[_ Ha]]; [by eapply Hfirst|].
      apply list_lookup_singleton_Some in Ha as [_ <-]. done.
Qed.

(** When the set-up succeeds, the three slices and the writers are as the
    loop over the heights expects them. *)
Lemma setup_ready s : setup start = Next tt s → ready s.
Proof.
  unfold setup. intros Hrun.
  apply bind_Next in Hrun as ([] & s1 & Hmk & Hrun).
  apply bind_Next in Hrun as ([] & s2 & Hmake & Hrun).
  apply bind_Next in Hrun as ([] & s3 & Hfiles & Hrun).
  apply bind_Next in Hrun as (cert & s4 & Hcert & Hrun).
  apply check_Next in Hmk as [_ ->].
  apply try_Next in Hcert as [_ ->].
  apply check_Next in Hrun as [_ ->].
  injection Hmake as <-.
  apply (forRange_openFile 32 0) in Hfiles; [|lia|].
  - destruct Hfiles as (Hb & He & Hfl & Hptr & Hnil & Hheap & Hfirst).
    unfold ready. split_and!; [done|done|done|apply Hnil; lia|done|done|done].
  - unfold opened; simpl. split_and!; [done..|lia| |done|].
    + intros i Hi. apply (lookup_replicate_2 33 (None : option nat)). lia.
    + intros a w Ha. by rewrite lookup_nil in Ha.
Qed.

Lemma ready_distinct s : ready s → distinctFiles s.
Proof.
  intros (_ & _ & Hfl & Hnil & Hptr & _) i j a Hi Hj.
  pose proof (lookup_lt_Some _ _ _ Hi) as Hli.
  pose proof (lookup_lt_Some _ _ _ Hj) as Hlj.
  destruct (decide (i = 0%nat)) as [->|]; [congruence|].
  destruct (decide (j = 0%nat)) as [->|]; [congruence|].
  rewrite Hptr in Hi by lia. rewrite Hptr in Hj by lia.
  simplify_eq. lia.
Qed.

Lemma ready_writersOpen s : ready s → writersOpen s.
Proof.
  intros (_ & _ & Hfl & Hnil & Hptr & Hheap & Hfirst) i Hi.
  unfold writerOf. rewrite Hptr by done.
  destruct (lookup_lt_is_Some_2 (heap s) (i - 1)) as [w Hw]; [lia|].
  exists w. split; [done|]. by eapply Hfirst.
Qed.

(** What one height does when it runs to its end: the block is fetched and
    serialised, every slot from 1 to 32 goes through one round, slot 0 is
    kept, and the index moves on exactly when the height is the test height
    it points to. *)
Lemma heightStep_Next cases idx h s idx' s' :
  distinctFiles s →
  heightStep cases idx h s = Next idx' s' →
  ∃ bh block bb c,
    GetBlockHash h = Ok bh ∧ GetBlock bh = Ok block ∧ Serialize block = Ok bb
    ∧ cases !! idx = Some c
    ∧ idx' = (if decide (uint32 h = Case.height c) then S idx else idx)
    ∧ (∀ i, (1 ≤ i ≤ 32)%nat → slotRound cases idx h bh block bb i s s')
    ∧ (∀ j, ¬ (1 ≤ j ≤ 32)%nat → slotKept j s s')
    ∧ sameShape s s'.
Proof.
  intros Hd Hrun. unfold heightStep in Hrun.
  apply bind_Next in Hrun as (bh & s1 & Hbh & Hrun).
  apply bind_Next in Hrun as (block & s2 & Hblock & Hrun).
  apply bind_Next in Hrun as (bb & s3 & Hbb & Hrun).
  apply bind_Next in Hrun as ([] & s4 & Hloop & Hrun).
  apply bind_Next in Hrun as (c & s5 & Hc & Hrun).
  apply try_Next in Hbh as [Hbh ->]. apply try_Next in Hblock as [Hblock ->].
  apply try_Next in Hbb as [Hbb ->]. apply caseAt_Next in Hc as [Hc ->].
  injection Hrun as <- <-.
  apply forRange_rounds in Hloop as (Hrounds & Hkept & Hshape); [|done].
  exists bh, block, bb, c. split_and!; [done..| | |done].
  - intros i Hi. apply Hrounds. lia.
  - intros j Hj. apply Hkept. lia.
Qed.

(** One height never stops for lack of fuel. *)
Lemma heightStep_Halt cases idx h s w s' :
  heightStep cases idx h s = Halt w s' → w ≠ OutOfFuel.
Proof.
  intros Hrun. unfold heightStep in Hrun.
  apply bind_Halt in Hrun as [Hrun|(bh & s1 & _ & Hrun)];
    [by apply try_Halt in Hrun as [-> _]|].
  apply bind_Halt in Hrun as [Hrun|(block & s2 & _ & Hrun)];
    [by apply try_Halt in Hrun as [-> _]|].
  apply bind_Halt in Hrun as [Hrun|(bb & s3 & _ & Hrun)];
    [by apply try_Halt in Hrun as [-> _]|].
  apply bind_Halt in Hrun as [Hrun|([] & s4 & _ & Hrun)].
  - apply forRange_Halt_inv in Hrun as (k & s5 & _ & _ & Hbody).
    by apply iteration_Halt in Hbody as [_ ?].
  - apply bind_Halt in Hrun as [Hrun|(c & s5 & _ & Hrun)]; [|done].
    by apply caseAt_Halt in Hrun as [-> _].
Qed.


End height_facts.

(** ** Rows, headers and the comparison with the server *)

Section round_claims.
Context `{Chain, Gcs, Os, Client}.





End round_claims.

(** ** The round claims in the concrete world *)





(** ** The encoder of the specification *)

Section encoder_claims.
Variable hashToRange : bytes → Z → bytes → Z.
Variable countPrefix : Z → bytes.
Variable filterDigest : bytes → Hash.
Variable doubleHash : bytes → Hash.
Variable defaultP : Z.

Local Abbreviation G := (spec.gcs hashToRange countPrefix filterDigest doubleHash defaultP).

Lemma elementSet_same (d1 d2 : list bytes) :
  (∀ e, e ∈ d1 ↔ e ∈ d2) → spec.elementSet d1 ≡ₚ spec.elementSet d2.
Proof.
  intros Hsame. unfold spec.elementSet.
  apply NoDup_Permutation; [apply NoDup_remove_dups..|].
  intros e. by rewrite !elem_of_remove_dups.
Qed.

(** Two lists with the same elements hash to the same sorted values. *)
Lemma hashedSet_same key P (d1 d2 : list bytes) :
  (∀ e, e ∈ d1 ↔ e ∈ d2) →
  spec.hashedSet hashToRange key P d1 = spec.hashedSet hashToRange key P d2.
Proof.
  intros Hsame. pose proof (elementSet_same d1 d2 Hsame) as Hperm.
  unfold spec.hashedSet.
  rewrite <-(Permutation_length Hperm).
  apply (Sorted_unique Z.le); [apply Sorted_merge_sort, _..|].
  rewrite !merge_sort_Permutation. by apply fmap_Permutation.
Qed.

(** C5. Under the encoder of the specification, building a filter from
    the same key, the same [P] and the same elements presented in another
    order gives the same filter and the same bytes; the build is a function,
    so two runs on the same input agree as well.  In particular [Build]
    gives the same result for two builders that hold the same key and [P]
    and were handed the elements in different orders. *)
Theorem build_order_independent key P (d1 d2 : list bytes) :
  d1 ≡ₚ d2 →
  spec.build hashToRange key P d1 = spec.build hashToRange key P d2
  ∧ spec.nBytes countPrefix (spec.build hashToRange key P d1)
    = spec.nBytes countPrefix (spec.build hashToRange key P d2)
  ∧ ∀ b1 b2 : GCSBuilder (H0 := G),
      b_err b1 = None → b_err b2 = None →
      b_p b1 = P → b_p b2 = P → b_key b1 = key → b_key b2 = key →
      b_data b1 = d1 → b_data b2 = d2 →
      Build b1 = Build b2.
Proof.
  intros Hperm.
  assert (spec.build hashToRange key P d1 = spec.build hashToRange key P d2) as Hbuild.
  { unfold spec.build. rewrite (hashedSet_same key P d1 d2); [done|].
    intros e. by rewrite Hperm. }
  split; [done|]. split; [by rewrite Hbuild|].
  intros b1 b2 He1 He2 Hp1 Hp2 Hk1 Hk2 Hd1 Hd2. unfold Build.
  rewrite He1, He2, Hp1, Hp2, Hk1, Hk2, Hd1, Hd2. simpl. by rewrite Hbuild.
Qed.

End encoder_claims.

Lemma build_order_independent_witness :
  [[Byte.x01]; [Byte.x02; Byte.x03]; [Byte.x04]] ≡ₚ [[Byte.x04]; [Byte.x01]; [Byte.x02; Byte.x03]]
  ∧ spec.nBytes (λ n, [demo.byteOfZ n])
      (spec.build demo.hashToRange [Byte.x07] 19 [[Byte.x01]; [Byte.x02; Byte.x03]; [Byte.x04]])
    = spec.nBytes (λ n, [demo.byteOfZ n])
        (spec.build demo.hashToRange [Byte.x07] 19 [[Byte.x04]; [Byte.x01]; [Byte.x02; Byte.x03]]).
Proof.
  assert ([[Byte.x01]; [Byte.x02; Byte.x03]; [Byte.x04]]
          ≡ₚ [[Byte.x04]; [Byte.x01]; [Byte.x02; Byte.x03]]) as Hperm.
  { exact (Permutation_app_comm [[Byte.x01]; [Byte.x02; Byte.x03]] [[Byte.x04]]). }
  split; [exact Hperm|].
  exact (proj1 (proj2 (build_order_independent demo.hashToRange (λ n, [demo.byteOfZ n])
                         demo.pad32 (λ bs, demo.pad32 (reverse bs)) 19
                         [Byte.x07] 19 _ _ Hperm))).
Defined.

Section empty_filter.
Context `{Chain}.
Variable hashToRange : bytes → Z → bytes → Z.
Variable countPrefix : Z → bytes.
Variable filterDigest : bytes → Hash.
Variable doubleHash : bytes → Hash.
Variable defaultP : Z.

Local Abbreviation G := (spec.gcs hashToRange countPrefix filterDigest doubleHash defaultP).

Lemma build_empty key P :
  spec.build hashToRange key P [] = {| spec.n := 0; spec.p := P; spec.filterData := [] |}.
Proof. reflexivity. Qed.


End empty_filter.


(** ** Independence of the slots *)

Section independence.
Context `{Chain, Gcs, Os, Client}.

Lemma respects_stateless {A} R (m : M A) : stateless m → respects R m.
Proof.
  intros [[a Hm]|[w Hm]] s1 s2 HR; rewrite (Hm s1), (Hm s2); by split.
Qed.

Lemma respects_bind {A B} R (m : M A) (k : A → M B) :
  respects R m → (∀ a, respects R (k a)) → respects R (m ≫= k).
Proof.
  intros Hm Hk s1 s2 HR. specialize (Hm s1 s2 HR).
  unfold mbind, M_bind, sameOutcome in *.
  destruct (m s1) as [a1 t1|w1 t1], (m s2) as [a2 t2|w2 t2]; try done.
  destruct Hm as [-> HR']. by apply Hk.
Qed.

Lemma stateless_try {A} msg (r : result A) : stateless (try msg r).
Proof. destruct r; [left|right]; by eexists. Qed.

Lemma stateless_check msg e : stateless (check msg e).
Proof. destruct e; [right|left]; by eexists. Qed.

Lemma stateless_caseAt cases idx : stateless (caseAt cases idx).
Proof. unfold caseAt. destruct (cases !! idx); [left|right]; by eexists. Qed.

Lemma stateless_NBytesOf f : stateless (NBytesOf f).
Proof. destruct f; [left|right]; by eexists. Qed.

Lemma stateless_mret {A} (a : A) : stateless (mret a).
Proof. left. by eexists. Qed.

Lemma stateless_abort msg : stateless (abort msg).
Proof. right. by eexists. Qed.

(** The comparison with the server looks at no state at all. *)
Lemma respects_crossCheck R bh bf ef bhd ehd :
  respects R (crossCheck bh bf ef bhd ehd).
Proof.
  unfold crossCheck.
  repeat first
    [ apply respects_bind; [|intros ?]
    | apply respects_stateless;
      first [apply stateless_try | apply stateless_NBytesOf
            | apply stateless_mret | apply stateless_abort]
    | case_decide ].
Qed.

Lemma respects_readPrevBasic i : respects (agreeOn i) (readSlot prevBasicHeaders i).
Proof.
  intros s1 s2 HR. pose proof HR as (Hb & _). unfold readSlot. rewrite <-Hb.
  by destruct (prevBasicHeaders s1 !! i).
Qed.

Lemma respects_readPrevExt i : respects (agreeOn i) (readSlot prevExtHeaders i).
Proof.
  intros s1 s2 HR. pose proof HR as (_ & He & _). unfold readSlot. rewrite <-He.
  by destruct (prevExtHeaders s1 !! i).
Qed.

Lemma lookup_eq_lt {A} (l1 l2 : list A) i :
  l1 !! i = l2 !! i → (i < length l1)%nat ↔ (i < length l2)%nat.
Proof. intros Heq. by rewrite <-!lookup_lt_is_Some, Heq. Qed.

Lemma respects_writePrevBasic i x :
  respects (agreeOn i) (writeSlot prevBasicHeaders set_prevBasicHeaders i x).
Proof.
  intros s1 s2 HR. pose proof HR as (Hb & He & Hf & Hh). unfold writeSlot.
  pose proof (lookup_eq_lt _ _ i Hb) as Hlt.
  destruct (decide (i < length (prevBasicHeaders s1))%nat) as [Hl|Hl].
  - rewrite decide_True by by apply Hlt. split; [done|].
    unfold agreeOn; simpl. rewrite !list_lookup_insert_eq by tauto. by split_and!.
  - rewrite decide_False by tauto. done.
Qed.

Lemma respects_writePrevExt i x :
  respects (agreeOn i) (writeSlot prevExtHeaders set_prevExtHeaders i x).
Proof.
  intros s1 s2 HR. pose proof HR as (Hb & He & Hf & Hh). unfold writeSlot.
  pose proof (lookup_eq_lt _ _ i He) as Hlt.
  destruct (decide (i < length (prevExtHeaders s1))%nat) as [Hl|Hl].
  - rewrite decide_True by by apply Hlt. split; [done|].
    unfold agreeOn; simpl. rewrite !list_lookup_insert_eq by tauto. by split_and!.
  - rewrite decide_False by tauto. done.
Qed.

(** Writing a row reads and writes the writer behind slot [i] only. *)
Lemma respects_writeRow i row : respects (agreeOn i) (writeRow i row).
Proof.
  intros s1 s2 HR. pose proof HR as (Hb & He & Hf & Hh).
  unfold writeRow, callWriter, readSlot, writeSlot, halt.
  unfold mbind, M_bind, mret, M_ret.
  rewrite <-Hf. destruct (files s1 !! i) as [[a|]|] eqn:Hi; [|done..].
  rewrite <-(Hh a eq_refl).
  destruct (heap s1 !! a) as [w|] eqn:Ha; [|done].
  pose proof (lookup_lt_Some _ _ _ Ha) as Hl1.
  assert (a < length (heap s2))%nat as Hl2.
  { apply lookup_lt_is_Some. rewrite <-(Hh a eq_refl). by eexists. }
  destruct (WriteTestCase w row) as [w' err].
  rewrite !decide_True by done. split; [done|].
  unfold agreeOn; simpl. split_and!; [done|done|congruence|].
  intros a' Ha'. rewrite Hi in Ha'. injection Ha' as <-.
  by rewrite !list_lookup_insert_eq.
Qed.

Lemma respects_emitRow c h bh bb bf ef bhd ehd i :
  respects (agreeOn i) (emitRow c h bh bb bf ef bhd ehd i).
Proof.
  unfold emitRow.
  repeat first
    [ apply respects_writeRow
    | apply respects_readPrevBasic | apply respects_readPrevExt
    | apply respects_bind; [|intros ?]
    | apply respects_stateless;
      first [apply stateless_try | apply stateless_NBytesOf | apply stateless_check] ].
Qed.

(** The outcome of a round depends on slot [i] only, and so does slot [i]
    after the round. *)
Lemma respects_iteration cases idx h bh block bb i :
  respects (agreeOn i) (iteration cases idx h bh block bb i).
Proof.
  unfold iteration.
  repeat first
    [ apply respects_crossCheck | apply respects_emitRow
    | apply respects_readPrevBasic | apply respects_readPrevExt
    | apply respects_writePrevBasic | apply respects_writePrevExt
    | apply respects_bind; [|intros ?]
    | apply respects_stateless;
      first [apply stateless_try | apply stateless_caseAt | apply stateless_mret]
    | case_decide ].
Qed.

(** C9. A round for parameter [i] reads slot [i] only: two states that
    agree on slot [i] of the three slices (and on the writer behind it) give
    the same outcome and agree on slot [i] afterwards.  It writes slot [i]
    only: however it ends, every other slot of the header slices and every
    other writer is as before, and [files] itself is never assigned.  A
    whole height leaves slot 0 as it was. *)
Theorem slots_independent cases idx h bh block bb i :
  (∀ s1 s2,
     agreeOn i s1 s2 →
     sameOutcome (agreeOn i) (iteration cases idx h bh block bb i s1)
       (iteration cases idx h bh block bb i s2))
  ∧ (∀ s,
       distinctFiles s →
       files (stateOf (iteration cases idx h bh block bb i s)) = files s
       ∧ ∀ j, j ≠ i → slotKept j s (stateOf (iteration cases idx h bh block bb i s)))
  ∧ (∀ s idx' s',
       distinctFiles s →
       heightStep cases idx h s = Next idx' s' →
       files s' = files s ∧ slotKept 0 s s').
Proof.
  split_and!.
  - apply respects_iteration.
  - intros s Hd.
    destruct (iteration cases idx h bh block bb i s) as [[] s'|w s'] eqn:Hrun; simpl.
    + apply iteration_Next, iterated_slots in Hrun as (_ & Hkept & Hshape & _); done.
    + apply iteration_Halt in Hrun as [Honly _].
      apply onlyWriter_slots in Honly as (Hkept & Hshape & _); done.
  - intros s idx' s' Hd Hstep.
    apply heightStep_Next in Hstep as (? & ? & ? & ? & _ & _ & _ & _ & _ & _ & Hkept & Hshape & _);
      [|done].
    split; [done|]. apply Hkept. lia.
Qed.

End independence.

(** Round 19 of height 0 in the concrete world leaves every other slot as
    the set-up made it. *)
Lemma slots_independent_witness :
  distinctFiles scene.s0
  ∧ ∀ j, j ≠ 19%nat →
      slotKept j scene.s0
        (stateOf
           (iteration (H := demo.chain) (H0 := demo.gcs) (H1 := demo.os) (H2 := demo.client)
              demo.smallCases 0 0 (demo.pad32 (demo.le 4 0)) (demo.blockAt 0) (demo.le 4 0)
              19 scene.s0)).
Proof.
  assert (distinctFiles scene.s0) as Hd.
  { apply ready_distinct, (setup_ready (H1 := demo.os) (H2 := demo.client)).
    vm_compute. reflexivity. }
  split; [exact Hd|].
  exact (proj2 (proj1 (proj2 (slots_independent (H := demo.chain) (H0 := demo.gcs)
                                (H1 := demo.os) (H2 := demo.client)
                                demo.smallCases 0 0 (demo.pad32 (demo.le 4 0))
                                (demo.blockAt 0) (demo.le 4 0) 19)) scene.s0 Hd)).
Defined.

(** ** The loop over the heights *)

Section height_loop.
Context `{Chain, Gcs, Os, Client}.

Lemma lastHeight_ge cases c : c ∈ cases → Case.height c ≤ lastHeight cases.
Proof.
  unfold lastHeight. induction cases as [|c' cases IH]; intros Hin.
  - by apply elem_of_nil in Hin.
  - rewrite fmap_cons. cbn [foldr].
    apply elem_of_cons in Hin as [->|Hin]; [lia|].
    specialize (IH Hin). lia.
Qed.

Lemma sorted_lookup_lt (l : list Z) i j x y :
  Sorted Z.lt l → l !! i = Some x → l !! j = Some y → (i < j)%nat → x < y.
Proof.
  intros Hs. apply Sorted_StronglySorted in Hs; [|apply _].
  revert i j. induction Hs as [|z l Hs IH Hall]; intros i j Hi Hj Hlt.
  - by rewrite lookup_nil in Hi.
  - destruct j as [|j]; [lia|]. simpl in Hj. destruct i as [|i]; simpl in Hi.
    + injection Hi as <-. rewrite Forall_forall in Hall.
      apply Hall. by eapply list_elem_of_lookup_2.
    + apply (IH i j); [done..|lia].
Qed.

Lemma uint32_small h : 0 ≤ h < 2 ^ 32 → uint32 h = h.
Proof. intros Hh. unfold uint32. by apply Z.mod_small. Qed.

(** The row of a round is a row for its case. *)
Lemma rowOf_isRowFor c h bh bb b bfB efB rowBytes :
  h = Case.height c →
  Marshal (rowOf c h bh bb b bfB efB) = Ok rowBytes →
  isRowFor rowBytes c.
Proof. intros -> Hm. eexists. split; [exact Hm|]. done. Qed.

(** One height on states whose index points at a height not yet passed:
    either the height is the test height, the index moves on and every file
    receives one row for that case, or it is smaller, the index stays and
    no file is written. *)
Lemma heightStep_rows cases idx h s idx' s' c :
  sortedCases cases → distinctFiles s → writersOpen s →
  0 ≤ h → cases !! idx = Some c → h ≤ Case.height c →
  heightStep cases idx h s = Next idx' s' →
  distinctFiles s' ∧ writersOpen s'
  ∧ (∀ c', cases !! idx' = Some c' → h + 1 ≤ Case.height c')
  ∧ ((h = Case.height c ∧ idx' = S idx
      ∧ ∀ i, (1 ≤ i ≤ 32)%nat →
          ∃ w w' rowBytes,
            writerOf s i = Some w ∧ writerOf s' i = Some w'
            ∧ f_data (writer w') = f_data (writer w) ++ rowChunks rowBytes
            ∧ isRowFor rowBytes c)
     ∨ (h < Case.height c ∧ idx' = idx
        ∧ ∀ i, (1 ≤ i ≤ 32)%nat → writerOf s' i = writerOf s i)).
Proof.
  intros [Hsorted Hrange] Hd Hopen Hh0 Hc Hle Hstep.
  apply heightStep_Next in Hstep
    as (bh & block & bb & c0 & _ & _ & _ & Hc0 & -> & Hrounds & _ & Hshape); [|done].
  assert (c0 = c) as -> by congruence.
  assert (0 ≤ Case.height c < 2 ^ 32) as Hcr.
  { rewrite Forall_forall in Hrange. apply Hrange. by eapply list_elem_of_lookup_2. }
  rewrite uint32_small in * by lia.
  split; [by eapply sameShape_distinct|].
  destruct (decide (h = Case.height c)) as [Heq|Hne].
  - assert (∀ i, (1 ≤ i ≤ 32)%nat →
              ∃ w w' rowBytes,
                writerOf s i = Some w ∧ writerOf s' i = Some w'
                ∧ firstRowWritten w' = true
                ∧ f_data (writer w') = f_data (writer w) ++ rowChunks rowBytes
                ∧ isRowFor rowBytes c) as Hrows.
    { intros i Hi. destruct (Hrounds i Hi) as (b & c1 & _ & _ & Hc1 & _ & _ & Hrow).
      assert (c1 = c) as -> by congruence.
      rewrite uint32_small, decide_True in Hrow by (done || lia).
      destruct Hrow as (bfB & efB & w & w' & _ & _ & Hw & Hwr & Hw').
      destruct (Hopen i Hi) as (w0 & Hw0 & Hfirst).
      assert (w0 = w) as -> by congruence.
      destruct (WriteTestCase_appends _ _ _ Hfirst Hwr) as (rb & Hm & Hdata & _).
      exists w, w', rb. split_and!; [done..|by eapply WriteTestCase_first|done|].
      by eapply rowOf_isRowFor. }
    split_and!.
    + intros i Hi. destruct (Hrows i Hi) as (w & w' & rb & _ & Hw' & Hf & _). by exists w'.
    + intros c' Hc'.
      assert (Case.height c < Case.height c'); [|lia].
      apply (sorted_lookup_lt (Case.height <$> cases) idx (S idx));
        [done|by rewrite list_lookup_fmap, Hc|by rewrite list_lookup_fmap, Hc'|lia].
    + left. split_and!; [done..|]. intros i Hi.
      destruct (Hrows i Hi) as (w & w' & rb & ? & ? & _ & ? & ?). by exists w, w', rb.
  - assert (∀ i, (1 ≤ i ≤ 32)%nat → writerOf s' i = writerOf s i) as Hsame.
    { intros i Hi. destruct (Hrounds i Hi) as (b & c1 & _ & _ & Hc1 & _ & _ & Hrow).
      assert (c1 = c) as -> by congruence.
      by rewrite uint32_small, decide_False in Hrow by (done || lia). }
    split_and!.
    + intros i Hi. rewrite Hsame by done. by apply Hopen.
    + intros c' Hc'. assert (c' = c) as -> by congruence. lia.
    + right. split_and!; [lia|done..].
Qed.


(** The loop over the heights from any point at which the index points at a
    height not yet passed: with fuel for the heights up to the last test
    height it never runs out, and when it ends normally every file has
    received one row for each of the remaining cases, in order. *)
Lemma heightLoop_rows cases :
  sortedCases cases →
  ∀ fuel idx h s,
    distinctFiles s → writersOpen s → 0 ≤ h →
    (∀ c, cases !! idx = Some c → h ≤ Case.height c) →
    ((idx < length cases)%nat → lastHeight cases < h + Z.of_nat fuel) →
    (∀ s', heightLoop fuel cases idx h s ≠ Halt OutOfFuel s')
    ∧ (∀ s', heightLoop fuel cases idx h s = Next tt s' →
         ∀ i, (1 ≤ i ≤ 32)%nat →
           ∃ w w' rows,
             writerOf s i = Some w ∧ writerOf s' i = Some w'
             ∧ f_data (writer w') = f_data (writer w) ++ (rows ≫= rowChunks)
             ∧ Forall2 isRowFor rows (drop idx cases)).
Proof.
  intros Hsorted fuel.
  induction fuel as [|fuel IH]; intros idx h s Hd Hopen Hh0 Hnext Hfuel.
  - simpl. destruct (decide (idx < length cases)%nat) as [Hidx|Hidx].
    + exfalso. destruct (lookup_lt_is_Some_2 cases idx Hidx) as [c Hc].
      pose proof (Hnext c Hc).
      pose proof (lastHeight_ge cases c (list_elem_of_lookup_2 _ _ _ Hc)).
      specialize (Hfuel Hidx). lia.
    + split; [done|]. intros s' [= <-] i Hi.
      destruct (Hopen i Hi) as (w & Hw & _).
      exists w, w, []. rewrite drop_ge by lia. simpl. rewrite app_nil_r.
      split_and!; [done..|constructor].
  - simpl. destruct (decide (idx < length cases)%nat) as [Hidx|Hidx].
    + destruct (lookup_lt_is_Some_2 cases idx Hidx) as [c Hc].
      pose proof (Hnext c Hc) as Hle.
      assert (∀ idx' s1, heightStep cases idx h s = Next idx' s1 →
                (∀ s', heightLoop fuel cases idx' (h + 1) s1 ≠ Halt OutOfFuel s')
                ∧ (∀ s', heightLoop fuel cases idx' (h + 1) s1 = Next tt s' →
                     ∀ i, (1 ≤ i ≤ 32)%nat →
                       ∃ w w' rows,
                         writerOf s i = Some w ∧ writerOf s' i = Some w'
                         ∧ f_data (writer w') = f_data (writer w) ++ (rows ≫= rowChunks)
                         ∧ Forall2 isRowFor rows (drop idx cases))) as Hstep.
      { intros idx' s1 Hstep.
        destruct (heightStep_rows cases idx h s idx' s1 c Hsorted Hd Hopen Hh0 Hc Hle Hstep)
          as (Hd1 & Hopen1 & Hnext1 & Hcase).
        destruct (IH idx' (h + 1) s1 Hd1 Hopen1 ltac:(lia) Hnext1) as [IHfuel IHrows].
        { intros _. specialize (Hfuel Hidx). lia. }
        split; [done|]. intros s' Hrun i Hi.
        destruct (IHrows s' Hrun i Hi) as (w1 & w' & rows & Hw1 & Hw' & Hdata & Hrows).
        destruct Hcase as [(Heq & -> & Hrow)|(Hlt & -> & Hsame)].
        - destruct (Hrow i Hi) as (w & w1' & rb & Hw & Hw1' & Hdata1 & Hrb).
          assert (w1' = w1) as -> by congruence.
          exists w, w', (rb :: rows). split_and!; [done..| |].
          + rewrite Hdata, Hdata1. simpl. by rewrite <-app_assoc.
          + rewrite (drop_S _ _ _ Hc). by constructor.
        - rewrite Hsame in Hw1 by done. by exists w1, w', rows. }
      split.
      * intros s' Hrun. apply bind_Halt in Hrun as [Hrun|(idx' & s1 & Hs & Hrun)].
        -- by apply heightStep_Halt in Hrun.
        -- by apply (proj1 (Hstep idx' s1 Hs) s').
      * intros s' Hrun. apply bind_Next in Hrun as (idx' & s1 & Hs & Hrun).
        by apply (proj2 (Hstep idx' s1 Hs) s').
    + split; [done|]. intros s' [= <-] i Hi.
      destruct (Hopen i Hi) as (w & Hw & _).
      exists w, w, []. rewrite drop_ge by lia. simpl. rewrite app_nil_r.
      split_and!; [done..|constructor].
Qed.


End height_loop.



(** A complete run in the concrete world, with the test heights 0 and 2:
    [main] returns normally after three heights, and the file of parameter
    19 then holds seven chunks: the opening bracket, the column row, two
    separators, two rows and the closing bracket. *)
Example main_completes :
  ∃ s, mainWith (H := demo.chain) (H0 := demo.gcs) (H1 := demo.os) (H2 := demo.client)
         3 demo.smallCases = Next tt s
       ∧ (length ∘ f_data ∘ writer <$> writerOf s 19) = Some 7%nat.
Proof. eexists. split; vm_compute; reflexivity. Qed.

(** * Further properties of the program *)

(** ** The row writer on its own *)

Section writer_facts.
Context `{Os}.

Lemma WriteTestCase_cases w row w' err :
  WriteTestCase w row = (w', err) →
  f_name (writer w') = f_name (writer w)
  ∧ f_closed (writer w') = f_closed (writer w)
  ∧ firstRowWritten w' = true
  ∧ match err with
    | None => ∃ rowBytes, Marshal row = Ok rowBytes
                          ∧ f_data (writer w')
                            = f_data (writer w) ++ [separator w; rowBytes]
    | Some _ => f_data (writer w') = f_data (writer w)
                ∨ f_data (writer w') = f_data (writer w) ++ [separator w]
    end.
Proof.
  unfold WriteTestCase, WriteString, Write, separator. intros Hw.
  destruct (firstRowWritten w) eqn:Hfirst;
    repeat (case_match; simplify_eq/=); split_and!; try done; eauto;
    try (eexists; split; [done|]; by rewrite <-app_assoc).
Qed.

Lemma Close_cases w w' err :
  Close w = (w', err) →
  f_name (writer w') = f_name (writer w)
  ∧ f_closed (writer w') = f_closed (writer w)
  ∧ firstRowWritten w' = firstRowWritten w
  ∧ if firstRowWritten w
    then (err = None ∧ f_data (writer w') = f_data (writer w) ++ [closing])
         ∨ (err ≠ None ∧ f_data (writer w') = f_data (writer w))
    else err = None ∧ w' = w.
Proof.
  unfold Close, WriteString, Write, closing. intros Hc.
  destruct (firstRowWritten w) eqn:Hfirst;
    repeat (case_match; simplify_eq/=); split_and!; try done; eauto.
Qed.


Lemma writeRows_written w rows w' :
  firstRowWritten w = true →
  writeRows w rows = (w', None) →
  ∃ rowBytes,
    Forall2 (λ row rb, Marshal row = Ok rb) rows rowBytes
    ∧ firstRowWritten w' = true
    ∧ f_data (writer w') = f_data (writer w) ++ (rowBytes ≫= rowChunks).
Proof.
  revert w. induction rows as [|row rows IH]; intros w Hfirst Hrun; simpl in Hrun.
  - injection Hrun as <-. exists []. simpl. by rewrite app_nil_r.
  - destruct (WriteTestCase w row) as [w1 [e|]] eqn:Hw; [done|].
    apply WriteTestCase_cases in Hw as (_ & _ & Hfirst1 & rb & Hm & Hdata).
    destruct (IH w1 Hfirst1 Hrun) as (rbs & Hall & Hfirst' & Hdata').
    exists (rb :: rbs). split_and!; [by constructor|done|].
    rewrite Hdata', Hdata. unfold separator. rewrite Hfirst. simpl.
    by rewrite <-app_assoc.
Qed.

(** X2. Rows written to a fresh writer and a [Close], all without an error,
    leave a complete array in the file: the opening bracket, the encoded
    rows with a separator between any two, and the closing bracket.  With
    no row at all [Close] writes nothing, so the file stays as it was. *)
Theorem writer_frames_rows f rows w' w'' :
  writeRows (NewJSONTestWriter f) rows = (w', None) →
  Close w' = (w'', None) →
  ∃ rowBytes,
    Forall2 (λ row rb, Marshal row = Ok rb) rows rowBytes
    ∧ f_data (writer w'') = f_data f ++ framed rowBytes.
Proof.
  intros Hrun Hclose. destruct rows as [|row rows]; simpl in Hrun.
  - injection Hrun as <-. exists []. split; [constructor|].
    unfold Close in Hclose. simpl in Hclose. injection Hclose as <-.
    simpl. by rewrite app_nil_r.
  - destruct (WriteTestCase (NewJSONTestWriter f) row) as [w1 [e|]] eqn:Hw; [done|].
    apply WriteTestCase_cases in Hw as (_ & _ & Hfirst1 & rb & Hm & Hdata).
    destruct (writeRows_written w1 rows w' Hfirst1 Hrun) as (rbs & Hall & Hfirst' & Hdata').
    apply Close_cases in Hclose as (_ & _ & _ & Hc). rewrite Hfirst' in Hc.
    destruct Hc as [[_ Hc]|[? _]]; [|done].
    exists (rb :: rbs). split; [by constructor|].
    rewrite Hc, Hdata', Hdata. simpl. by rewrite <-!app_assoc.
Qed.


End writer_facts.

(** ** What [main] does on every path *)

Section exit_facts.
Context `{Chain, Gcs, Os, Client}.

Lemma keeps_bind {A B} P (m : M A) (k : A → M B) :
  keeps P m → (∀ a, keeps P (k a)) → keeps P (m ≫= k).
Proof.
  intros Hm Hk s Hs. specialize (Hm s Hs). unfold mbind, M_bind.
  destruct (m s) as [a s1|w s1]; simpl in *; [by apply Hk|done].
Qed.

Lemma keeps_stateless {A} P (m : M A) : stateless m → keeps P m.
Proof. intros [[a Hm]|[w Hm]] s Hs; by rewrite Hm. Qed.

Lemma keeps_readSlot {A} P (xs : State → list A) i : keeps P (readSlot xs i).
Proof. intros s Hs. unfold readSlot. by destruct (xs s !! i). Qed.

Lemma keeps_forRange P (body : nat → M unit) n :
  (∀ i, keeps P (body i)) → ∀ from, keeps P (forRange n from body).
Proof.
  intros Hbody. induction n as [|n IH]; intros from; simpl.
  - by intros s Hs.
  - apply keeps_bind; [done|]. intros _. apply IH.
Qed.

Lemma keeps_writeSlot {A} P (xs : State → list A) set i x :
  (∀ s, P s → (i < length (xs s))%nat → P (set (<[i := x]> (xs s)) s)) →
  keeps P (writeSlot xs set i x).
Proof.
  intros Hset s Hs. unfold writeSlot. case_decide; simpl; [by apply Hset|done].
Qed.

Lemma keeps_callWriter P a method :
  (∀ s w', P s → (a < length (heap s))%nat → P (set_heap (<[a := w']> (heap s)) s)) →
  keeps P (callWriter a method).
Proof.
  intros Hset. unfold callWriter. apply keeps_bind; [apply keeps_readSlot|].
  intros w. destruct (method w) as [w' err].
  apply keeps_bind; [by apply keeps_writeSlot; intros; apply Hset|].
  intros _. apply keeps_stateless. left. by eexists.
Qed.

(** An invariant that does not depend on the contents of the slices or of
    the writers is kept by a round. *)
Lemma keeps_iteration P cases idx h bh block bb i :
  (∀ s a w', P s → (a < length (heap s))%nat → P (set_heap (<[a := w']> (heap s)) s)) →
  (∀ s x, P s → (i < length (prevBasicHeaders s))%nat →
          P (set_prevBasicHeaders (<[i := x]> (prevBasicHeaders s)) s)) →
  (∀ s x, P s → (i < length (prevExtHeaders s))%nat →
          P (set_prevExtHeaders (<[i := x]> (prevExtHeaders s)) s)) →
  keeps P (iteration cases idx h bh block bb i).
Proof.
  intros Hheap Hpb Hpe.
  unfold iteration, crossCheck, emitRow, writeRow.
  repeat first
    [ apply keeps_readSlot
    | apply keeps_callWriter; intros; by apply Hheap
    | apply keeps_writeSlot; intros; first [by apply Hpb | by apply Hpe]
    | apply keeps_bind; [|intros ?]
    | apply keeps_stateless;
      first [apply stateless_try | apply stateless_caseAt | apply stateless_mret
            | apply stateless_NBytesOf | apply stateless_check | apply stateless_abort
            | by right; eexists ]
    | case_decide
    | case_match ].
Qed.


Lemma keeps_heightStep P cases idx h :
  shapeInvariant P → keeps P (heightStep cases idx h).
Proof.
  intros (Hheap & Hpb & Hpe). unfold heightStep.
  repeat first
    [ apply keeps_forRange; intros ?; apply keeps_iteration; intros; eauto
    | apply keeps_bind; [|intros ?]
    | apply keeps_stateless;
      first [apply stateless_try | apply stateless_caseAt | apply stateless_mret] ].
Qed.

Lemma keeps_heightLoop P cases fuel :
  shapeInvariant P → ∀ idx h, keeps P (heightLoop fuel cases idx h).
Proof.
  intros HP. induction fuel as [|fuel IH]; intros idx h; simpl; case_decide;
    try (apply keeps_stateless; (by left; eexists) || (by right; eexists)).
  apply keeps_bind; [by apply keeps_heightStep|]. intros idx'. apply IH.
Qed.

Lemma shapeInvariant_tracked : shapeInvariant tracked.
Proof.
  unfold tracked. split_and!; intros; simpl; rewrite ?length_insert; done.
Qed.

Lemma shapeInvariant_running : shapeInvariant running.
Proof.
  unfold running. split_and!; intros ? ? ? (? & ? & ? & ?) ?; simpl;
    rewrite ?length_insert; done.
Qed.

Lemma keeps_openFile_tracked i : keeps tracked (openFile i).
Proof.
  unfold openFile.
  apply keeps_bind; [apply keeps_stateless, stateless_check|]. intros _.
  apply keeps_bind.
  { intros s Hs. unfold allocWriter, tracked in *; simpl.
    rewrite length_app, Hs; simpl. rewrite Nat.add_1_r, seq_S, reverse_app. done. }
  intros a. apply keeps_bind.
  { apply keeps_callWriter. intros. by apply shapeInvariant_tracked. }
  intros err. apply keeps_bind; [apply keeps_stateless, stateless_check|]. intros _.
  apply keeps_writeSlot. by intros.
Qed.

Lemma keeps_setup_tracked : keeps tracked setup.
Proof.
  unfold setup.
  apply keeps_bind; [apply keeps_stateless, stateless_check|]. intros _.
  apply keeps_bind; [by intros s Hs|]. intros _.
  apply keeps_bind; [apply keeps_forRange, keeps_openFile_tracked|]. intros _.
  apply keeps_bind; [apply keeps_stateless, stateless_try|]. intros cert.
  apply keeps_stateless, stateless_check.
Qed.

(** Running the deferred calls over distinct addresses closes the writers
    at these addresses and leaves the others alone. *)
Lemma deferred_fold addrs :
  NoDup addrs →
  ∀ s a,
    heap (foldl (λ s a,
                   match heap s !! a with
                   | Some w =>
                       let '(w, _) := Close w in
                       set_heap (<[a := {| writer := closeFile (writer w);
                                           firstRowWritten := firstRowWritten w |}]>
                                   (heap s)) s
                   | None => s
                   end) s addrs) !! a
    = if decide (a ∈ addrs) then closed <$> heap s !! a else heap s !! a.
Proof.
  induction 1 as [|a0 addrs Hnotin Hnd IH]; intros s a; cbn [foldl].
  - rewrite decide_False; [done|]. apply not_elem_of_nil.
  - rewrite IH. clear IH.
    assert (∀ b, heap match heap s !! a0 with
                      | Some w =>
                          let '(w, _) := Close w in
                          set_heap (<[a0 := {| writer := closeFile (writer w);
                                              firstRowWritten := firstRowWritten w |}]>
                                      (heap s)) s
                      | None => s
                      end !! b
                 = if decide (b = a0) then closed <$> heap s !! a0 else heap s !! b) as Hstep.
    { intros b. destruct (heap s !! a0) as [w|] eqn:Ha0.
      - unfold closed. simpl. destruct (Close w) as [w1 e]. simpl.
        destruct (decide (b = a0)) as [->|Hne].
        + rewrite list_lookup_insert_eq; [done|]. by eapply lookup_lt_Some.
        + by rewrite list_lookup_insert_ne by done.
      - destruct (decide (b = a0)) as [->|]; [by rewrite Ha0|done]. }
    rewrite Hstep.
    destruct (decide (a = a0)) as [Heq|Hne]; [subst a|].
    + rewrite (decide_False (P := a0 ∈ addrs)) by done.
      rewrite (decide_True (P := a0 ∈ a0 :: addrs)); [done|]. by left.
    + destruct (decide (a ∈ addrs)) as [Hin|Hin].
      * rewrite (decide_True (P := a ∈ a0 :: addrs)); [done|]. by right.
      * rewrite (decide_False (P := a ∈ a0 :: addrs)); [done|].
        intros [?|?]%elem_of_cons; done.
Qed.

Lemma runDeferred_heap s a :
  tracked s → heap (runDeferred s) !! a = closed <$> heap s !! a.
Proof.
  intros Ht. unfold runDeferred. rewrite deferred_fold.
  - simpl. rewrite Ht. destruct (decide (a ∈ reverse (seq 0 (length (heap s))))) as [|Hin];
      [done|].
    rewrite lookup_ge_None_2; [done|].
    destruct (decide (length (heap s) ≤ a)%nat); [done|]. exfalso. apply Hin.
    rewrite elem_of_reverse, elem_of_seq. lia.
  - rewrite Ht, reverse_Permutation. apply NoDup_seq.
Qed.

(** X4. However [main] ends, normally or at any of its early returns, every
    output file it has created has been closed by then, after the [Close]
    of its writer: each writer of the final state is the deferred [Close]
    and file close applied to the writer [main] was left with. *)
Theorem main_closes_every_file fuel cases a w :
  heap (stateOf (mainWith fuel cases)) !! a = Some w →
  f_closed (writer w) = true
  ∧ ∃ w0, heap (stateOf ((setup ≫= λ _, heightLoop fuel cases 0 0) start)) !! a = Some w0
          ∧ w = closed w0.
Proof.
  assert (tracked (stateOf ((setup ≫= λ _, heightLoop fuel cases 0 0) start))) as Ht.
  { apply keeps_bind; [apply keeps_setup_tracked| |done].
    intros _. apply keeps_heightLoop, shapeInvariant_tracked. }
  assert (stateOf (mainWith fuel cases)
          = runDeferred (stateOf ((setup ≫= λ _, heightLoop fuel cases 0 0) start))) as Hmain.
  { unfold mainWith. by destruct ((setup ≫= λ _, heightLoop fuel cases 0 0) start). }
  rewrite Hmain, runDeferred_heap by done.
  destruct (heap _ !! a) as [w0|]; [|done]. intros [= <-]. split; [done|]. by exists w0.
Qed.

Lemma sound_bind {A B} P (m : M A) (k : A → M B) :
  sound P m → (∀ a, sound P (k a)) → sound P (m ≫= k).
Proof.
  intros Hm Hk s Hs. destruct (Hm s Hs) as [Hp Hnp]. unfold mbind, M_bind.
  destruct (m s) as [a s1|w s1]; simpl in *; [by apply Hk|].
  split; [done|]. intros msg s' [= -> ->]. by eapply Hnp.
Qed.

Lemma sound_next {A} P (m : M A) : (∃ a, ∀ s, m s = Next a s) → sound P m.
Proof. intros [a Hm] s Hs. by rewrite Hm. Qed.

Lemma sound_fail {A} P (m : M A) msg : (∀ s, m s = Halt (Fail msg) s) → sound P m.
Proof. intros Hm s Hs. by rewrite Hm. Qed.

Lemma sound_try {A} P msg (r : result A) : sound P (try msg r).
Proof. destruct r; [apply sound_next; by eexists|by eapply sound_fail]. Qed.

Lemma sound_check P msg e : sound P (check msg e).
Proof. destruct e; [by eapply sound_fail|apply sound_next; by eexists]. Qed.

Lemma sound_NBytesOf P f : sound P (NBytesOf (orEmpty f)).
Proof. apply sound_next. exists (filterBytes f). apply NBytesOf_orEmpty. Qed.

Lemma sound_caseAt P cases idx : (idx < length cases)%nat → sound P (caseAt cases idx).
Proof.
  intros Hidx. destruct (lookup_lt_is_Some_2 cases idx Hidx) as [c Hc].
  apply sound_next. exists c. intros s. unfold caseAt. by rewrite Hc.
Qed.

Lemma sound_forRange P (body : nat → M unit) n :
  ∀ from, (∀ i, (from ≤ i < from + n)%nat → sound P (body i)) →
          sound P (forRange n from body).
Proof.
  induction n as [|n IH]; intros from Hbody; simpl.
  - apply sound_next. by eexists.
  - apply sound_bind; [apply Hbody; lia|]. intros _. apply IH. intros i Hi. apply Hbody. lia.
Qed.

Lemma sound_readPrevBasic i :
  (1 ≤ i ≤ 32)%nat → sound running (readSlot prevBasicHeaders i).
Proof.
  intros Hi s Hs. pose proof Hs as (Hb & _). unfold readSlot.
  destruct (lookup_lt_is_Some_2 (prevBasicHeaders s) i) as [x ->]; [lia|done].
Qed.

Lemma sound_readPrevExt i :
  (1 ≤ i ≤ 32)%nat → sound running (readSlot prevExtHeaders i).
Proof.
  intros Hi s Hs. pose proof Hs as (_ & He & _). unfold readSlot.
  destruct (lookup_lt_is_Some_2 (prevExtHeaders s) i) as [x ->]; [lia|done].
Qed.

Lemma sound_writePrevBasic i x :
  (1 ≤ i ≤ 32)%nat →
  sound running (writeSlot prevBasicHeaders set_prevBasicHeaders i x).
Proof.
  intros Hi s Hs. pose proof Hs as (Hb & _). unfold writeSlot.
  rewrite decide_True by lia. split; [|done].
  apply shapeInvariant_running; [done|lia].
Qed.

Lemma sound_writePrevExt i x :
  (1 ≤ i ≤ 32)%nat →
  sound running (writeSlot prevExtHeaders set_prevExtHeaders i x).
Proof.
  intros Hi s Hs. pose proof Hs as (_ & He & _). unfold writeSlot.
  rewrite decide_True by lia. split; [|done].
  apply shapeInvariant_running; [done|lia].
Qed.

Lemma sound_writeRow i row : (1 ≤ i ≤ 32)%nat → sound running (writeRow i row).
Proof.
  intros Hi s Hs. pose proof Hs as (_ & _ & _ & Hptr).
  destruct (Hptr i Hi) as (a & Ha & Hlt).
  destruct (lookup_lt_is_Some_2 (heap s) a Hlt) as [w Hw].
  unfold writeRow, callWriter, readSlot, writeSlot, mbind, M_bind, mret, M_ret.
  rewrite Ha, Hw. destruct (WriteTestCase w row) as [w' err].
  rewrite decide_True by done. simpl. split; [|done].
  by apply shapeInvariant_running.
Qed.

(** From a state with all its slots, a round for a parameter from 1 to 32
    at an index inside the list of test heights cannot panic. *)
Lemma sound_iteration cases idx h bh block bb i :
  (1 ≤ i ≤ 32)%nat → (idx < length cases)%nat →
  sound running (iteration cases idx h bh block bb i).
Proof.
  intros Hi Hidx. unfold iteration, crossCheck, emitRow.
  repeat first
    [ apply sound_writeRow; done
    | apply sound_readPrevBasic; done | apply sound_readPrevExt; done
    | apply sound_writePrevBasic; done | apply sound_writePrevExt; done
    | apply sound_NBytesOf | apply sound_try | apply sound_check
    | apply sound_caseAt; done
    | apply sound_bind; [|intros ?]
    | by eapply sound_fail
    | apply sound_next; by eexists
    | case_decide ].
Qed.

Lemma sound_heightStep cases idx h :
  (idx < length cases)%nat → sound running (heightStep cases idx h).
Proof.
  intros Hidx. unfold heightStep.
  repeat first
    [ apply sound_forRange; intros ? ?; apply sound_iteration; [lia|done]
    | apply sound_try | apply sound_caseAt; done
    | apply sound_bind; [|intros ?]
    | apply sound_next; by eexists ].
Qed.

Lemma sound_heightLoop cases fuel :
  ∀ idx h, sound running (heightLoop fuel cases idx h).
Proof.
  induction fuel as [|fuel IH]; intros idx h; simpl; case_decide.
  - intros s Hs. done.
  - apply sound_next. by eexists.
  - apply sound_bind; [by apply sound_heightStep|]. intros idx'. apply IH.
  - apply sound_next. by eexists.
Qed.

Lemma ready_running s : ready s → running s.
Proof.
  intros (Hb & He & Hfl & _ & Hptr & Hheap & _). unfold running.
  rewrite Hb, He, !length_replicate. split_and!; [done..|].
  intros i Hi. exists (i - 1)%nat. split; [by apply Hptr|lia].
Qed.

Lemma openFile_Halt k i s w s' :
  opened k s → (i ≤ 32)%nat → openFile i s = Halt w s' → ∃ msg, w = Fail msg.
Proof.
  intros (_ & _ & Hfl & _) Hi.
  unfold openFile, allocWriter, callWriter, check, halt, readSlot, writeSlot.
  unfold mbind, M_bind, mret, M_ret. simpl. intros Hrun.
  destruct (Create (fName i)); [injection Hrun as <- <-; by eexists|]. simpl in Hrun.
  rewrite lookup_app_r, Nat.sub_diag in Hrun by done. simpl in Hrun.
  destruct (WriteComment _ _) as [w' err]. simpl in Hrun.
  rewrite length_app in Hrun. simpl in Hrun.
  rewrite decide_True in Hrun by lia. simpl in Hrun.
  destruct err; simpl in Hrun; [injection Hrun as <- <-; by eexists|].
  rewrite decide_True in Hrun by lia. done.
Qed.

Lemma check_Halt msg e s w s' : check msg e s = Halt w s' → w = Fail msg ∧ s' = s.
Proof. unfold check, halt, mret, M_ret. by destruct e; intros [=]; subst. Qed.

(** The set-up stops early only with a diagnostic. *)
Lemma setup_Halt w s : setup start = Halt w s → ∃ msg, w = Fail msg.
Proof.
  unfold setup. intros Hrun.
  apply bind_Halt in Hrun as [Hrun|([] & s1 & Hmk & Hrun)];
    [apply check_Halt in Hrun as [-> _]; by eexists|].
  apply check_Next in Hmk as [_ ->].
  apply bind_Halt in Hrun as [Hrun|([] & s2 & Hmake & Hrun)]; [done|].
  injection Hmake as <-.
  apply bind_Halt in Hrun as [Hrun|([] & s3 & Hfiles & Hrun)].
  - apply forRange_Halt_inv in Hrun as (k & s1 & Hk & Hpre & Hbody).
    apply (forRange_openFile k 0) in Hpre; [|lia|].
    + apply (openFile_Halt (0 + k) (1 + k) s1 w s Hpre); [lia|done].
    + unfold opened; simpl. split_and!; [done..|lia| |done|].
      * intros i Hi. apply (lookup_replicate_2 33 (None : option nat)). lia.
      * intros a w0 Ha. by rewrite lookup_nil in Ha.
  - apply bind_Halt in Hrun as [Hrun|(cert & s4 & Hcert & Hrun)];
      [apply try_Halt in Hrun as [-> _]; by eexists|].
    apply check_Halt in Hrun as [-> _]. by eexists.
Qed.

(** X5. [main] never panics: every slice index it uses is in range and
    every writer pointer it follows is non-nil, for any list of test heights
    and whatever the collaborators return.  When it stops early it is with
    one of its diagnostics (or, in this model, for lack of fuel). *)
Theorem main_never_panics fuel cases w s :
  mainWith fuel cases = Halt w s → (∃ msg, w = Fail msg) ∨ w = OutOfFuel.
Proof.
  unfold mainWith. intros Hmain.
  destruct ((setup ≫= λ _, heightLoop fuel cases 0 0) start) as [[] s1|w1 s1] eqn:Hrun;
    [done|].
  injection Hmain as -> _.
  apply bind_Halt in Hrun as [Hrun|([] & s0 & Hsetup & Hrun)].
  - left. by eapply setup_Halt.
  - apply setup_ready, ready_running in Hsetup.
    destruct (sound_heightLoop cases fuel 0 0 s0 Hsetup) as [_ Hnp].
    destruct w as [msg|msg|]; [left; by eexists| |by right].
    exfalso. by eapply Hnp.
Qed.

End exit_facts.

(** ** The output of a run *)

Section output_facts.
Context `{Chain, Gcs, Os, Client}.

Lemma openFile_Next_fresh i s s' :
  openFile i s = Next tt s' →
  ∃ w, freshFile i w
       ∧ s' = set_files (<[i := Some (length (heap s))]> (files s))
                (set_heap (heap s ++ [w])
                   (set_deferred (length (heap s) :: deferred s) s)).
Proof.
  unfold openFile, allocWriter, callWriter, check, halt, readSlot, writeSlot.
  unfold mbind, M_bind, mret, M_ret. simpl. intros Hrun.
  destruct (Create (fName i)); [done|]. simpl in Hrun.
  rewrite lookup_app_r, Nat.sub_diag in Hrun by done. simpl in Hrun.
  destruct (WriteComment _ _) as [w' err] eqn:Hw. simpl in Hrun.
  repeat (case_match; simplify_eq/=).
  apply WriteTestCase_cases in Hw as (Hname & Hclosed & Hfirst & colBytes & Hm & Hdata).
  exists w'. split.
  - unfold freshFile. split_and!; [done..|]. by exists colBytes.
  - unfold set_files, set_heap, set_deferred; simpl.
    by rewrite insert_app_r_alt, Nat.sub_diag.
Qed.

Lemma forRange_openFile_fresh n :
  ∀ k s s',
    (k + n ≤ 32)%nat → opened k s →
    (∀ i, (1 ≤ i ≤ k)%nat → ∃ w, heap s !! (i - 1)%nat = Some w ∧ freshFile i w) →
    forRange n (S k) openFile s = Next tt s' →
    ∀ i, (1 ≤ i ≤ k + n)%nat → ∃ w, heap s' !! (i - 1)%nat = Some w ∧ freshFile i w.
Proof.
  induction n as [|n IH]; intros k s s' Hk Hop Hfresh Hrun; simpl in Hrun.
  - injection Hrun as <-. by rewrite Nat.add_0_r.
  - apply bind_Next in Hrun as ([] & s1 & Hopen & Hrest).
    rewrite <-Nat.add_succ_comm. apply (IH (S k) s1); [lia| |clear IH|done].
    + replace (S k) with (k + 1)%nat by lia.
      apply (forRange_openFile 1 k s); [lia|done|].
      simpl. apply bind_Next. by exists tt, s1.
    + apply openFile_Next_fresh in Hopen as (w & Hw & ->). simpl.
      destruct Hop as (_ & _ & _ & _ & _ & Hheap & _).
      intros i Hi. destruct (decide (i = S k)) as [->|Hne].
      * exists w. split; [|done].
        rewrite lookup_app_r by lia. by replace (S k - 1 - length (heap s))%nat with 0%nat by lia.
      * destruct (Hfresh i) as (w0 & Hw0 & Hf0); [lia|].
        exists w0. split; [|done]. by apply lookup_app_l_Some.
Qed.

(** The writers the set-up leaves behind the 32 output slots. *)
Lemma setup_writers s :
  setup start = Next tt s →
  ∀ i, (1 ≤ i ≤ 32)%nat → ∃ w, writerOf s i = Some w ∧ freshFile i w.
Proof.
  intros Hsetup. pose proof (setup_ready s Hsetup) as Hready.
  unfold setup in Hsetup.
  apply bind_Next in Hsetup as ([] & s1 & Hmk & Hrun).
  apply bind_Next in Hrun as ([] & s2 & Hmake & Hrun).
  apply bind_Next in Hrun as ([] & s3 & Hfiles & Hrun).
  apply bind_Next in Hrun as (cert & s4 & Hcert & Hrun).
  apply check_Next in Hmk as [Hmk ->]. apply try_Next in Hcert as [Hcert ->].
  apply check_Next in Hrun as [Hnew ->]. injection Hmake as <-.
  destruct Hready as (_ & _ & _ & _ & Hptr & _).
  intros i Hi. unfold writerOf. rewrite Hptr by done.
  match type of Hfiles with
  | forRange _ _ _ ?s0 = _ => assert (opened 0 s0) as Hop0
  end.
  { unfold opened; simpl. split_and!; [done..|lia| |done|].
    - intros j Hj. apply (lookup_replicate_2 33 (None : option nat)). lia.
    - intros a w0 Ha. by rewrite lookup_nil in Ha. }
  apply (forRange_openFile_fresh 32 0 _ _ (Nat.le_refl 32) Hop0); [|done|lia].
  intros j Hj. lia.
Qed.


Lemma keeps_writeRow_like h0 i row : keeps (writersLike h0) (writeRow i row).
Proof.
  intros s [Hlen Hlike].
  unfold writeRow, callWriter, readSlot, writeSlot, halt, mbind, M_bind, mret, M_ret.
  destruct (files s !! i) as [[a|]|]; simpl; [|done..].
  destruct (heap s !! a) as [w|] eqn:Hw; simpl; [|done].
  destruct (WriteTestCase w row) as [w' err] eqn:Hwr.
  rewrite decide_True by by eapply lookup_lt_Some. simpl.
  apply WriteTestCase_cases in Hwr as (Hname & Hclosed & Hfirst & _).
  split; simpl; [by rewrite length_insert|].
  intros b w0 w1 Hb Hw1. destruct (decide (b = a)) as [->|Hne].
  - rewrite list_lookup_insert_eq in Hw1 by by eapply lookup_lt_Some.
    injection Hw1 as <-. destruct (Hlike a w0 w Hb Hw) as (? & ? & ?).
    split_and!; congruence.
  - rewrite list_lookup_insert_ne in Hw1 by done. by apply (Hlike b).
Qed.

Lemma keeps_iteration_like h0 cases idx h bh block bb i :
  keeps (writersLike h0) (iteration cases idx h bh block bb i).
Proof.
  unfold iteration, crossCheck, emitRow.
  repeat first
    [ apply keeps_writeRow_like
    | apply keeps_readSlot
    | apply keeps_writeSlot; by intros
    | apply keeps_bind; [|intros ?]
    | apply keeps_stateless;
      first [apply stateless_try | apply stateless_caseAt | apply stateless_mret
            | apply stateless_NBytesOf | apply stateless_check | apply stateless_abort ]
    | case_decide ].
Qed.

Lemma keeps_heightLoop_like h0 cases fuel :
  ∀ idx h, keeps (writersLike h0) (heightLoop fuel cases idx h).
Proof.
  induction fuel as [|fuel IH]; intros idx h; simpl; case_decide;
    try (apply keeps_stateless; (by left; eexists) || (by right; eexists)).
  apply keeps_bind; [|intros idx'; apply IH]. unfold heightStep.
  repeat first
    [ apply keeps_forRange; intros ?; apply keeps_iteration_like
    | apply keeps_bind; [|intros ?]
    | apply keeps_stateless;
      first [apply stateless_try | apply stateless_caseAt | apply stateless_mret] ].
Qed.

Lemma lastHeight_le cases m :
  -1 ≤ m → (∀ c, c ∈ cases → Case.height c ≤ m) → lastHeight cases ≤ m.
Proof.
  intros Hm. unfold lastHeight. induction cases as [|c cases IH]; intros Hall.
  - simpl. lia.
  - rewrite fmap_cons. cbn [foldr].
    pose proof (Hall c ltac:(by left)).
    assert (foldr Z.max (-1) (Case.height <$> cases) ≤ m); [|lia].
    apply IH. intros c' Hc'. apply Hall. by right.
Qed.

(** The loop over the heights cannot end normally before the last test
    height has been processed. *)
Lemma heightLoop_needs_fuel cases :
  sortedCases cases →
  ∀ fuel idx h s s',
    distinctFiles s → writersOpen s → 0 ≤ h →
    (∀ c, cases !! idx = Some c → h ≤ Case.height c) →
    (idx < length cases)%nat →
    heightLoop fuel cases idx h s = Next tt s' →
    lastHeight cases < h + Z.of_nat fuel.
Proof.
  intros Hsorted fuel.
  induction fuel as [|fuel IH]; intros idx h s s' Hd Hopen Hh0 Hnext Hidx Hrun;
    simpl in Hrun; rewrite decide_True in Hrun by done; [done|].
  apply bind_Next in Hrun as (idx' & s1 & Hstep & Hrun).
  destruct (lookup_lt_is_Some_2 cases idx Hidx) as [c Hc].
  destruct (heightStep_rows cases idx h s idx' s1 c Hsorted Hd Hopen Hh0 Hc (Hnext c Hc) Hstep)
    as (Hd1 & Hopen1 & Hnext1 & Hcase).
  destruct (decide (idx' < length cases)%nat) as [Hidx'|Hidx'].
  - specialize (IH idx' (h + 1) s1 s' Hd1 Hopen1 ltac:(lia) Hnext1 Hidx' Hrun). lia.
  - destruct Hcase as [(Heq & -> & _)|(_ & -> & _)]; [|lia].
    assert (lastHeight cases ≤ h); [|lia].
    apply lastHeight_le; [lia|]. intros c' Hc'.
    apply list_elem_of_lookup_1 in Hc' as [j Hj].
    pose proof (lookup_lt_Some _ _ _ Hj).
    destruct (decide (j = idx)) as [->|Hne]; [assert (c' = c) by congruence; subst; lia|].
    destruct Hsorted as [Hs _].
    assert (Case.height c' < Case.height c); [|lia].
    apply (sorted_lookup_lt (Case.height <$> cases) j idx);
      [done|by rewrite list_lookup_fmap, Hj|by rewrite list_lookup_fmap, Hc|lia].
Qed.

(** X6. A run that ends normally has gone through every height from 0 to
    the last test height: with strictly increasing test heights the loop
    over the heights returns normally only with fuel for more than
    [lastHeight] heights. *)
Theorem loop_reaches_last_height cases fuel s0 s' :
  sortedCases cases → ready s0 →
  heightLoop fuel cases 0 0 s0 = Next tt s' →
  lastHeight cases < Z.of_nat fuel.
Proof.
  intros Hsorted Hready Hrun.
  destruct (decide (0 < length cases)%nat) as [Hlen|Hlen].
  - apply (heightLoop_needs_fuel cases Hsorted fuel 0 0 s0 s'
             (ready_distinct _ Hready) (ready_writersOpen _ Hready)); [lia| |done..].
    intros c Hc. destruct Hsorted as [_ Hrange]. rewrite Forall_forall in Hrange.
    apply Hrange. by eapply list_elem_of_lookup_2.
  - destruct cases; [|simpl in Hlen; lia]. unfold lastHeight. simpl. lia.
Qed.


(** X7. When the set-up of [main] succeeds, the directory was created, the
    certificate read and the client created, and behind every parameter from
    1 to 32 there is an open file of its own name that holds the opening
    bracket and the column row; slot 0 holds no writer. *)
Theorem setup_opens_files s :
  setup start = Next tt s →
  Mkdir "gcstestvectors" = None
  ∧ (∃ cert, ReadCert = Ok cert ∧ New cert = None)
  ∧ files s !! 0%nat = Some None
  ∧ ∀ i, (1 ≤ i ≤ 32)%nat → ∃ w, writerOf s i = Some w ∧ freshFile i w.
Proof.
  intros Hsetup.
  pose proof (setup_ready s Hsetup) as (_ & _ & _ & Hnil & _).
  pose proof (setup_writers s Hsetup) as Hwriters.
  unfold setup in Hsetup.
  apply bind_Next in Hsetup as ([] & s1 & Hmk & Hrun).
  apply bind_Next in Hrun as ([] & s2 & _ & Hrun).
  apply bind_Next in Hrun as ([] & s3 & _ & Hrun).
  apply bind_Next in Hrun as (cert & s4 & Hcert & Hrun).
  apply check_Next in Hmk as [Hmk _]. apply try_Next in Hcert as [Hcert ->].
  apply check_Next in Hrun as [Hnew _].
  split; [done|]. split; [by exists cert|]. by split.
Qed.

Lemma runDeferred_files s : files (runDeferred s) = files s.
Proof.
  unfold runDeferred.
  assert (∀ addrs s0,
            files (foldl (λ s a,
                   match heap s !! a with
                   | Some w =>
                       let '(w, _) := Close w in
                       set_heap (<[a := {| writer := closeFile (writer w);
                                           firstRowWritten := firstRowWritten w |}]>
                                   (heap s)) s
                   | None => s
                   end) s0 addrs) = files s0) as Hfold.
  { induction addrs as [|a addrs IH]; intros s0; cbn [foldl]; [done|].
    rewrite IH. destruct (heap s0 !! a) as [w|]; [|done]. by destruct (Close w). }
  by rewrite Hfold.
Qed.

(** X8. The output of a run that ends normally.  With strictly increasing
    test heights, when [main] returns normally every parameter from 1 to 32
    has a closed file of its own name that holds the opening bracket, the
    column row and then, each after a separator, one row for every test
    height in order; the closing bracket follows unless its write failed,
    which the deferred [Close] does not report. *)
Theorem main_output fuel cases s :
  sortedCases cases →
  mainWith fuel cases = Next tt s →
  ∀ i, (1 ≤ i ≤ 32)%nat →
    ∃ w colBytes rows,
      writerOf s i = Some w
      ∧ f_name (writer w) = fName i
      ∧ f_closed (writer w) = true
      ∧ Marshal [CStr columns] = Ok colBytes
      ∧ Forall2 isRowFor rows cases
      ∧ (f_data (writer w) = framed (colBytes :: rows)
         ∨ f_data (writer w) = [bytesOf ("[" +:+ LF); colBytes] ++ (rows ≫= rowChunks)).
Proof.
  intros Hsorted Hmain i Hi. unfold mainWith in Hmain.
  destruct ((setup ≫= λ _, heightLoop fuel cases 0 0) start) as [[] s1|w1 s1] eqn:Hrun;
    [|done].
  injection Hmain as <-.
  assert (tracked s1) as Ht.
  { change s1 with (stateOf (Next tt s1)). rewrite <-Hrun.
    apply keeps_bind; [apply keeps_setup_tracked| |done].
    intros _. apply keeps_heightLoop, shapeInvariant_tracked. }
  apply bind_Next in Hrun as ([] & s0 & Hsetup & Hloop).
  pose proof (setup_ready s0 Hsetup) as Hready.
  pose proof (setup_writers s0 Hsetup) as Hfresh.
  assert (0 ≤ 0) as H00 by lia.
  assert (∀ c, cases !! 0%nat = Some c → 0 ≤ Case.height c) as Hfirst.
  { intros c Hc. destruct Hsorted as [_ Hrange]. rewrite Forall_forall in Hrange.
    apply Hrange. by eapply list_elem_of_lookup_2. }
  assert ((0 < length cases)%nat → lastHeight cases < 0 + Z.of_nat fuel) as Hfuel.
  { intros Hlen. by apply (heightLoop_needs_fuel cases Hsorted fuel 0 0 s0 s1
                            (ready_distinct _ Hready) (ready_writersOpen _ Hready)). }
  destruct (heightLoop_rows cases Hsorted fuel 0 0 s0
              (ready_distinct _ Hready) (ready_writersOpen _ Hready) H00 Hfirst Hfuel)
    as [_ Hrows].
  destruct (Hrows s1 Hloop i Hi) as (w0 & w & rows & Hw0 & Hw & Hdata & Hall).
  destruct (Hfresh i Hi) as (w0' & Hw0' & Hname & Hopen & Hfirst0 & colBytes & Hm & Hdata0).
  assert (w0' = w0) as -> by congruence.
  assert (files s1 = files s0) as Hfiles.
  { pose proof (keeps_heightLoop (λ s, files s = files s0) cases fuel) as Hk.
    specialize (Hk ltac:(by split_and!; intros) 0%nat 0 s0 eq_refl).
    by rewrite Hloop in Hk. }
  assert (writersLike (heap s0) s1) as [_ Hlike].
  { pose proof (keeps_heightLoop_like (heap s0) cases fuel 0 0 s0) as Hk.
    rewrite Hloop in Hk. apply Hk. split; [done|]. intros a wa wb Ha Hb.
    by assert (wb = wa) as -> by congruence. }
  unfold writerOf in Hw0, Hw. rewrite Hfiles in Hw.
  destruct (files s0 !! i) as [[a|]|] eqn:Ha; [|done..].
  destruct (Hlike a w0 w Hw0 Hw) as (Hname1 & Hopen1 & Hfirst1).
  exists (closed w), colBytes, rows.
  assert (writerOf (runDeferred s1) i = Some (closed w)) as ->.
  { unfold writerOf. rewrite runDeferred_files, Hfiles, Ha.
    rewrite runDeferred_heap by done. by rewrite Hw. }
  unfold closed; simpl.
  destruct (Close w) as [wc e] eqn:Hclose. simpl.
  apply Close_cases in Hclose as (Hnamec & _ & _ & Hc).
  rewrite Hfirst1 in Hc by done.
  split_and!; [done|congruence|done|done|done|].
  rewrite Hdata, Hdata0 in Hc.
  destruct Hc as [[_ ->]|[_ ->]]; [left|by right].
  unfold framed. by rewrite <-?app_assoc.
Qed.

End output_facts.

(** ** Every height is checked *)

Section run_facts.
Context `{Chain, Gcs, Os, Client}.

Lemma slotRound_checked cases idx h bh block bb i s s' :
  slotRound cases idx h bh block bb i s s' →
  ∃ bf ef,
    buildBasicFilter block (uint8 (Z.of_nat i)) = Ok bf
    ∧ buildExtFilter block (uint8 (Z.of_nat i)) = Ok ef
    ∧ (Z.of_nat i = DefaultP →
       (∃ f, GetCFilter bh GCSFilterRegular = Ok f ∧ filterBytes bf = Ok (Data f))
       ∧ (∃ f, GetCFilter bh GCSFilterExtended = Ok f ∧ filterBytes ef = Ok (Data f))).
Proof.
  intros (b & c & (Hbf & _ & _ & Hef & _ & _) & Hagree & _).
  exists (basicFilter b), (extFilter b). split_and!; [done..|].
  intros Hi. by destruct (Hagree Hi) as (? & ? & _ & _).
Qed.

Lemma heightLoop_checked cases :
  sortedCases cases →
  ∀ fuel idx h0 s s',
    distinctFiles s → writersOpen s → 0 ≤ h0 →
    (∀ c, cases !! idx = Some c → h0 ≤ Case.height c) →
    (idx < length cases)%nat →
    heightLoop fuel cases idx h0 s = Next tt s' →
    ∀ h, h0 ≤ h ≤ lastHeight cases → checkedHeight h.
Proof.
  intros Hsorted fuel.
  induction fuel as [|fuel IH]; intros idx h0 s s' Hd Hopen Hh0 Hnext Hidx Hrun;
    simpl in Hrun; rewrite decide_True in Hrun by done; [done|].
  apply bind_Next in Hrun as (idx' & s1 & Hstep & Hrun).
  destruct (lookup_lt_is_Some_2 cases idx Hidx) as [c Hc].
  destruct (heightStep_rows cases idx h0 s idx' s1 c Hsorted Hd Hopen Hh0 Hc (Hnext c Hc) Hstep)
    as (Hd1 & Hopen1 & Hnext1 & Hcase).
  intros h Hh. destruct (decide (h = h0)) as [->|Hne].
  - apply heightStep_Next in Hstep
      as (bh & block & bb & _ & Hbh & Hblock & Hbb & _ & _ & Hrounds & _); [|done].
    exists bh, block, bb. split_and!; [done..|].
    intros i Hi. exact (slotRound_checked _ _ _ _ _ _ _ _ _ (Hrounds i Hi)).
  - destruct (decide (idx' < length cases)%nat) as [Hidx'|Hidx'].
    + apply (IH idx' (h0 + 1) s1 s' Hd1 Hopen1 ltac:(lia) Hnext1 Hidx' Hrun). lia.
    + exfalso. destruct Hcase as [(Heq & -> & _)|(_ & -> & _)]; [|lia].
      assert (lastHeight cases ≤ h0); [|lia].
      apply lastHeight_le; [lia|]. intros c' Hc'.
      apply list_elem_of_lookup_1 in Hc' as [j Hj].
      pose proof (lookup_lt_Some _ _ _ Hj).
      destruct (decide (j = idx)) as [->|Hne']; [assert (c' = c) by congruence; subst; lia|].
      destruct Hsorted as [Hs _].
      assert (Case.height c' < Case.height c); [|lia].
      apply (sorted_lookup_lt (Case.height <$> cases) j idx);
        [done|by rewrite list_lookup_fmap, Hj|by rewrite list_lookup_fmap, Hc|lia].
Qed.

(** X9. A run of the loop over the heights that ends normally has left no
    height out: with strictly increasing test heights, every height from 0
    to the last test height was fetched and serialised, had both filters
    built for all 32 parameters, and had the bytes of both default-parameter
    filters found equal to the server's. *)
Theorem run_checks_every_height cases fuel s0 s' h :
  sortedCases cases → ready s0 →
  heightLoop fuel cases 0 0 s0 = Next tt s' →
  0 ≤ h ≤ lastHeight cases →
  checkedHeight h.
Proof.
  intros Hsorted Hready Hrun Hh.
  destruct (decide (0 < length cases)%nat) as [Hlen|Hlen].
  - apply (heightLoop_checked cases Hsorted fuel 0 0 s0 s'
             (ready_distinct _ Hready) (ready_writersOpen _ Hready)); [lia| |done..].
    intros c Hc. destruct Hsorted as [_ Hrange]. rewrite Forall_forall in Hrange.
    apply Hrange. by eapply list_elem_of_lookup_2.
  - destruct cases; [|simpl in Hlen; lia]. unfold lastHeight in Hh. simpl in Hh. lia.
Qed.

End run_facts.

(** ** What the two builders hand to the encoder *)

Section build_facts.
Context `{Chain, Gcs}.

(** X10. What the basic filter is built from.  For a parameter of at most
    32, [buildBasicFilter] returns what the encoder makes, under the key
    derived from the block hash, of the collected entries, and an entry is
    collected exactly when it is the hash of a transaction, the serialised
    previous outpoint of an input of a transaction other than the first, or
    the whole script of an output. *)
Theorem basic_filter_elements block p :
  p ≤ 32 →
  buildBasicFilter block p
    = BuildGCSFilter p (DeriveKey (BlockHash block)) (b_data (basicBuilder block p))
  ∧ ∀ e, e ∈ b_data (basicBuilder block p) ↔
      (∃ tx, tx ∈ Transactions block ∧ e = TxHash tx)
      ∨ (∃ k tx txIn, Transactions block !! k = Some tx ∧ k ≠ 0%nat
                      ∧ txIn ∈ TxIn_ tx ∧ e = writeOutPoint (PreviousOutPoint txIn))
      ∨ (∃ tx txOut, tx ∈ Transactions block ∧ txOut ∈ TxOut_ tx ∧ e = PkScript txOut).
Proof.
  intros Hp. split; [by apply buildBasicFilter_encodes|].
  intros e. by apply basic_elements.
Qed.

Lemma WithKeyHashP_big keyHash p :
  32 < p → b_err (WithKeyHashP keyHash p) = Some ErrPTooBig.
Proof. intros Hp. unfold WithKeyHashP. simpl. by rewrite decide_True. Qed.

(** X11. When the builders fail.  Either builder returns an error in two
    cases only: the parameter is above 32, and then the error is that of the
    key, returned before any transaction is looked at; or the encoder
    rejects the collected entries, and then the error is the encoder's. *)
Theorem filter_build_errors block p e :
  (buildBasicFilter block p = Err e ↔
     (32 < p ∧ e = ErrPTooBig)
     ∨ (p ≤ 32
        ∧ BuildGCSFilter p (DeriveKey (BlockHash block))
            (elemsFrom basicElems 0 (Transactions block)) = Err e))
  ∧ (buildExtFilter block p = Err e ↔
       (32 < p ∧ e = ErrPTooBig)
       ∨ (p ≤ 32
          ∧ BuildGCSFilter p (DeriveKey (BlockHash block))
              (elemsFrom extElems 0 (Transactions block)) = Err e)).
Proof.
  destruct (decide (32 < p)) as [Hp|Hp].
  - unfold buildBasicFilter, buildExtFilter, Key_.
    rewrite WithKeyHashP_big by done.
    split; (split; [intros [= <-]; by left|intros [[_ ->]|[? _]]; [done|lia]]).
  - rewrite buildBasicFilter_encodes, buildExtFilter_encodes by lia.
    rewrite basicBuilder_data, extBuilder_data by lia.
    split; (split; [intros ?; right; split; [lia|done]|intros [[? _]|[_ ?]]; [lia|done]]).
Qed.

End build_facts.

(** ** The names of the output files *)

(** ** The names of the output files *)

Lemma digit_inj m n : (m < 10)%nat → (n < 10)%nat → digit m = digit n → m = n.
Proof.
  intros Hm Hn Heq.
  do 10 (destruct m as [|m];
         [do 10 (destruct n as [|n];
                 [first [reflexivity|vm_compute in Heq; discriminate Heq]|]); lia|]).
  lia.
Qed.

(** X12. No two parameters share an output file: below 100 the file name
    determines the parameter. *)
Theorem file_names_distinct i j :
  (i < 100)%nat → (j < 100)%nat → fName i = fName j → i = j.
Proof.
  intros Hi Hj Heq. unfold fName in Heq.
  assert (i / 10 < 10)%nat by (apply Nat.Div0.div_lt_upper_bound; lia).
  assert (j / 10 < 10)%nat by (apply Nat.Div0.div_lt_upper_bound; lia).
  pose proof (Nat.mod_upper_bound i 10 ltac:(lia)).
  pose proof (Nat.mod_upper_bound j 10 ltac:(lia)).
  assert (digit (i / 10) = digit (j / 10) ∧ digit (i mod 10) = digit (j mod 10)) as [Htens Hunits].
  { unfold digit in *.
    generalize dependent (Ascii.ascii_of_nat (48 + i / 10)).
    generalize dependent (Ascii.ascii_of_nat (48 + j / 10)).
    generalize dependent (Ascii.ascii_of_nat (48 + i mod 10)).
    generalize dependent (Ascii.ascii_of_nat (48 + j mod 10)).
    intros a b c d Heq. simpl in Heq. by injection Heq as -> ->. }
  apply digit_inj in Htens; [|done..]. apply digit_inj in Hunits; [|done..].
  rewrite (Nat.div_mod_eq i 10), (Nat.div_mod_eq j 10). by rewrite Htens, Hunits.
Qed.

(** ** The further properties in the concrete world *)

Lemma smallCases_sorted : sortedCases demo.smallCases.
Proof.
  split.
  - apply (bool_decide_unpack _). vm_compute. exact I.
  - apply (bool_decide_unpack _). vm_compute. exact I.
Qed.

Lemma scene_ready : ready scene.s0.
Proof. apply (setup_ready (H1 := demo.os) (H2 := demo.client)). vm_compute. reflexivity. Qed.

(** Two rows written to an empty file and a [Close], on a disk that never
    fails. *)
Lemma writer_frames_rows_witness :
  writeRows (H := demo.os) (NewJSONTestWriter trial.emptyFile) trial.rows
  = ((writeRows (H := demo.os) (NewJSONTestWriter trial.emptyFile) trial.rows).1, None)
  ∧ ∃ rowBytes,
      Forall2 (λ row rb, Marshal (Os := demo.os) row = Ok rb) trial.rows rowBytes
      ∧ f_data (writer (Close (H := demo.os)
                          (writeRows (H := demo.os)
                             (NewJSONTestWriter trial.emptyFile) trial.rows).1).1)
        = f_data trial.emptyFile ++ framed rowBytes.
Proof.
  split; [vm_compute; reflexivity|].
  apply (writer_frames_rows (H := demo.os) trial.emptyFile trial.rows
           (writeRows (H := demo.os) (NewJSONTestWriter trial.emptyFile) trial.rows).1
           (Close (H := demo.os)
              (writeRows (H := demo.os) (NewJSONTestWriter trial.emptyFile) trial.rows).1).1);
    vm_compute; reflexivity.
Defined.


(** The set-up in the concrete world. *)
Lemma setup_opens_files_witness :
  setup (H1 := demo.os) (H2 := demo.client) start = Next tt scene.s0
  ∧ ∀ i, (1 ≤ i ≤ 32)%nat →
      ∃ w, writerOf scene.s0 i = Some w ∧ freshFile (H1 := demo.os) i w.
Proof.
  assert (setup (H1 := demo.os) (H2 := demo.client) start = Next tt scene.s0) as Hsetup
    by (vm_compute; reflexivity).
  split; [exact Hsetup|].
  exact (proj2 (proj2 (proj2 (setup_opens_files (H1 := demo.os) (H2 := demo.client)
                                scene.s0 Hsetup)))).
Defined.

(** A run that the stale server stops at height 0: the file of parameter 19
    is closed all the same. *)
Lemma main_closes_every_file_witness :
  ∃ w, heap (stateOf (mainWith (H := demo.chain) (H0 := demo.gcs) (H1 := demo.os)
                        (H2 := demo.staleClient) 3 demo.smallCases)) !! 18%nat = Some w
       ∧ f_closed (writer w) = true.
Proof.
  assert (∃ w, heap (stateOf (mainWith (H := demo.chain) (H0 := demo.gcs) (H1 := demo.os)
                               (H2 := demo.staleClient) 3 demo.smallCases)) !! 18%nat
               = Some w) as [w Hw].
  { eexists. vm_compute. reflexivity. }
  exists w. split; [exact Hw|].
  exact (proj1 (main_closes_every_file (H := demo.chain) (H0 := demo.gcs) (H1 := demo.os)
                  (H2 := demo.staleClient) 3 demo.smallCases 18%nat w Hw)).
Defined.

(** The run that the stale server stops ends in a reported failure. *)
Lemma main_never_panics_witness :
  ∃ w s, mainWith (H := demo.chain) (H0 := demo.gcs) (H1 := demo.os)
           (H2 := demo.staleClient) 3 demo.smallCases = Halt w s
         ∧ ((∃ msg, w = Fail msg) ∨ w = OutOfFuel).
Proof.
  assert (∃ w s, mainWith (H := demo.chain) (H0 := demo.gcs) (H1 := demo.os)
                   (H2 := demo.staleClient) 3 demo.smallCases = Halt w s) as (w & s & Hrun).
  { eexists _, _. vm_compute. reflexivity. }
  exists w, s. split; [exact Hrun|].
  exact (main_never_panics (H := demo.chain) (H0 := demo.gcs) (H1 := demo.os)
           (H2 := demo.staleClient) 3 demo.smallCases w s Hrun).
Defined.

(** The loop over the heights 0 to 2 in the concrete world. *)
Lemma loop_reaches_last_height_witness :
  (∃ s', heightLoop (H := demo.chain) (H0 := demo.gcs) (H1 := demo.os) (H2 := demo.client)
           3 demo.smallCases 0 0 scene.s0 = Next tt s')
  ∧ lastHeight demo.smallCases < Z.of_nat 3.
Proof.
  assert (∃ s', heightLoop (H := demo.chain) (H0 := demo.gcs) (H1 := demo.os)
                  (H2 := demo.client) 3 demo.smallCases 0 0 scene.s0 = Next tt s')
    as [s' Hrun].
  { eexists. vm_compute. reflexivity. }
  split; [exists s'; exact Hrun|].
  exact (loop_reaches_last_height (H := demo.chain) (H0 := demo.gcs) (H1 := demo.os)
           (H2 := demo.client) demo.smallCases 3 scene.s0 s'
           smallCases_sorted scene_ready Hrun).
Defined.

(** Height 1 is no test height of the small run, and is checked all the
    same. *)
Lemma run_checks_every_height_witness :
  0 ≤ 1 ≤ lastHeight demo.smallCases
  ∧ checkedHeight (H := demo.chain) (H0 := demo.gcs) (H2 := demo.client) 1.
Proof.
  assert (0 ≤ 1 ≤ lastHeight demo.smallCases) as Hh by (unfold lastHeight; simpl; lia).
  assert (∃ s', heightLoop (H := demo.chain) (H0 := demo.gcs) (H1 := demo.os)
                  (H2 := demo.client) 3 demo.smallCases 0 0 scene.s0 = Next tt s')
    as [s' Hrun].
  { eexists. vm_compute. reflexivity. }
  split; [exact Hh|].
  exact (run_checks_every_height (H := demo.chain) (H0 := demo.gcs) (H1 := demo.os)
           (H2 := demo.client) demo.smallCases 3 scene.s0 s' 1
           smallCases_sorted scene_ready Hrun Hh).
Defined.

(** The output of the small run for parameter 19. *)
Lemma main_output_witness :
  ∃ s,
    mainWith (H := demo.chain) (H0 := demo.gcs) (H1 := demo.os) (H2 := demo.client)
      3 demo.smallCases = Next tt s
    ∧ ∃ w colBytes rows,
        writerOf s 19 = Some w
        ∧ f_name (writer w) = fName 19
        ∧ f_closed (writer w) = true
        ∧ Marshal (Os := demo.os) [CStr columns] = Ok colBytes
        ∧ Forall2 (isRowFor (H1 := demo.os)) rows demo.smallCases
        ∧ (f_data (writer w) = framed (colBytes :: rows)
           ∨ f_data (writer w)
             = [bytesOf ("[" +:+ LF); colBytes] ++ (rows ≫= rowChunks)).
Proof.
  assert (1 ≤ 19 ≤ 32)%nat as Hi by lia.
  assert (∃ s, mainWith (H := demo.chain) (H0 := demo.gcs) (H1 := demo.os)
                 (H2 := demo.client) 3 demo.smallCases = Next tt s) as [s Hrun].
  { eexists. vm_compute. reflexivity. }
  exists s. split; [exact Hrun|].
  exact (main_output (H := demo.chain) (H0 := demo.gcs) (H1 := demo.os) (H2 := demo.client)
           3 demo.smallCases s smallCases_sorted Hrun 19%nat Hi).
Defined.

(** The basic filter of the block at height 0 for parameter 19. *)
Lemma basic_filter_elements_witness :
  19 ≤ 32
  ∧ buildBasicFilter (H := demo.chain) (H0 := demo.gcs) (demo.blockAt 0) 19
    = BuildGCSFilter (Gcs := demo.gcs) 19
        (DeriveKey (Gcs := demo.gcs) (BlockHash (Chain := demo.chain) (demo.blockAt 0)))
        (b_data (basicBuilder (H := demo.chain) (H0 := demo.gcs) (demo.blockAt 0) 19)).
Proof.
  assert (19 ≤ 32) as Hp by lia.
  split; [exact Hp|].
  exact (proj1 (basic_filter_elements (H := demo.chain) (H0 := demo.gcs)
                  (demo.blockAt 0) 19 Hp)).
Defined.

(** The names of the files of parameters 7 and 7. *)
Lemma file_names_distinct_witness : (7 < 100)%nat ∧ 7%nat = 7%nat.
Proof.
  assert (7 < 100)%nat as Hi by lia.
  split; [exact Hi|].
  exact (file_names_distinct 7 7 Hi Hi eq_refl).
Defined.
